(** * Arithmetic kernels of GF(2^m): a shallow embedding of
      [galois/_fields/_gf2m.py] and the properties of its specification.

    Python integers are unbounded, so every integer of the source is a [Z];
    [^], [&], [<<], [>>] are [Z.lxor], [Z.land], [Z.shiftl], [Z.shiftr];
    [%] and [//] with a positive right operand are [Z.modulo] and [Z.div].
    [**] with a non-negative exponent is [Z.pow]: the kernels are modelled
    for [DEGREE >= 0], where [CHARACTERISTIC**DEGREE] is an integer.
    A kernel that can raise returns a [result]. *)

From Stdlib Require Import ZArith List Lia Bool Btauto Permutation.
Import ListNotations.
Local Open Scope Z_scope.

(** ** Exceptions and results *)

(** The exceptions the kernels raise.  The specification calls
    [ZeroDivisionError] "DivisionByZero" and the [ArithmeticError] of the
    logarithm "DomainError".  [UnboundLocalError] is what Python raises when a
    [for] variable is read after a loop over an empty range. *)
Inductive exn : Set :=
| ZeroDivisionError
| ArithmeticError
| UnboundLocalError.

Inductive result (A : Type) : Type :=
| Ok (a : A)
| Raise (e : exn).

Arguments Ok {A} a.
Arguments Raise {A} e.

Definition bind {A B : Type} (r : result A) (k : A -> result B) : result B :=
  match r with
  | Ok a => k a
  | Raise e => Raise e
  end.

Notation "x <- r ;; k" := (bind r (fun x => k))
  (at level 61, r at next level, right associativity).

(** [range(lo, hi)] of Python. *)
Definition py_range (lo hi : Z) : list Z :=
  map (fun k => lo + Z.of_nat k) (seq 0 (Z.to_nat (hi - lo))).

(** ** The kernels of class [GF2m] *)

Module GF2m.

(** The type of the global [MULTIPLY]: a kernel of two elements and the three
    field constants. *)
Definition multiply_kernel : Type := Z -> Z -> Z -> Z -> Z -> Z.

(** The type of the global [RECIPROCAL]. *)
Definition reciprocal_kernel : Type := Z -> Z -> Z -> Z -> result Z.

(** The type of the power kernel that [**] applies to an array element. *)
Definition power_kernel : Type := Z -> Z -> Z -> Z -> Z -> result Z.

Definition _add_calculate (a b CHARACTERISTIC DEGREE IRREDUCIBLE_POLY : Z) : Z :=
  Z.lxor a b.

Definition _negative_calculate (a CHARACTERISTIC DEGREE IRREDUCIBLE_POLY : Z) : Z :=
  a.

Definition _subtract_calculate (a b CHARACTERISTIC DEGREE IRREDUCIBLE_POLY : Z) : Z :=
  Z.lxor a b.

(** The [while b > 0] loop of [_multiply_calculate].  [b >>= 1] makes [b]
    strictly smaller, so [Z.to_nat b] iterations always suffice
    (lemma [multiply_while_eq] below is the loop's equation, with no fuel). *)
Fixpoint multiply_while (fuel : nat) (ORDER IRREDUCIBLE_POLY a b c : Z) : Z :=
  if b >? 0 then
    match fuel with
    | O => c
    | S fuel' =>
        let c := if negb (Z.land b 1 =? 0) then Z.lxor c a else c in
        let b := Z.shiftr b 1 in
        let a := Z.shiftl a 1 in
        let a := if a >=? ORDER then Z.lxor a IRREDUCIBLE_POLY else a in
        multiply_while fuel' ORDER IRREDUCIBLE_POLY a b c
    end
  else c.

(** [ORDER = CHARACTERISTIC**DEGREE] is read for [DEGREE >= 0], where it is
    the integer [CHARACTERISTIC ^ DEGREE]. *)
Definition _multiply_calculate (a b CHARACTERISTIC DEGREE IRREDUCIBLE_POLY : Z) : Z :=
  let ORDER := CHARACTERISTIC ^ DEGREE in
  let '(a, b) := if b >? a then (b, a) else (a, b) in
  let c := 0 in
  multiply_while (Z.to_nat b) ORDER IRREDUCIBLE_POLY a b c.

Section Globals.

(** The module-level globals [MULTIPLY] and [RECIPROCAL] that the composite
    kernels call. *)
Variable MULTIPLY : multiply_kernel.
Variable RECIPROCAL : reciprocal_kernel.

(** The square-and-multiply loop [while exponent > 1] that
    [_reciprocal_calculate] and [_power_calculate] both contain (the same text,
    the counter is called [exponent] in one and [b] in the other).  It returns
    the pair [(result_s, result_m)].  Each iteration makes the counter
    strictly smaller, so [Z.to_nat exponent] iterations suffice
    (lemma [square_multiply_while_eq]). *)
Fixpoint square_multiply_while (fuel : nat)
    (CHARACTERISTIC DEGREE IRREDUCIBLE_POLY result_s result_m exponent : Z) : Z * Z :=
  if exponent >? 1 then
    match fuel with
    | O => (result_s, result_m)
    | S fuel' =>
        if exponent mod 2 =? 0 then
          let result_s := MULTIPLY result_s result_s CHARACTERISTIC DEGREE IRREDUCIBLE_POLY in
          let exponent := exponent / 2 in
          square_multiply_while fuel' CHARACTERISTIC DEGREE IRREDUCIBLE_POLY
            result_s result_m exponent
        else
          let result_m := MULTIPLY result_m result_s CHARACTERISTIC DEGREE IRREDUCIBLE_POLY in
          let exponent := exponent - 1 in
          square_multiply_while fuel' CHARACTERISTIC DEGREE IRREDUCIBLE_POLY
            result_s result_m exponent
    end
  else (result_s, result_m).

Definition _reciprocal_calculate (a CHARACTERISTIC DEGREE IRREDUCIBLE_POLY : Z) : result Z :=
  if a =? 0 then Raise ZeroDivisionError
  else
    let ORDER := CHARACTERISTIC ^ DEGREE in
    let exponent := ORDER - 2 in
    let result_s := a in
    let result_m := 1 in
    let '(result_s, result_m) :=
      square_multiply_while (Z.to_nat exponent) CHARACTERISTIC DEGREE IRREDUCIBLE_POLY
        result_s result_m exponent in
    let result := MULTIPLY result_m result_s CHARACTERISTIC DEGREE IRREDUCIBLE_POLY in
    Ok result.

Definition _divide_calculate (a b CHARACTERISTIC DEGREE IRREDUCIBLE_POLY : Z) : result Z :=
  if b =? 0 then Raise ZeroDivisionError
  else if a =? 0 then Ok 0
  else
    b_inv <- RECIPROCAL b CHARACTERISTIC DEGREE IRREDUCIBLE_POLY ;;
    Ok (MULTIPLY a b_inv CHARACTERISTIC DEGREE IRREDUCIBLE_POLY).

Definition _power_calculate (a b CHARACTERISTIC DEGREE IRREDUCIBLE_POLY : Z) : result Z :=
  if (a =? 0) && (b <? 0) then Raise ZeroDivisionError
  else if b =? 0 then Ok 1
  else
    ab <- (if b <? 0
           then a' <- RECIPROCAL a CHARACTERISTIC DEGREE IRREDUCIBLE_POLY ;; Ok (a', Z.abs b)
           else Ok (a, b)) ;;
    let '(a, b) := ab in
    let result_s := a in
    let result_m := 1 in
    let '(result_s, result_m) :=
      square_multiply_while (Z.to_nat b) CHARACTERISTIC DEGREE IRREDUCIBLE_POLY
        result_s result_m b in
    let result := MULTIPLY result_m result_s CHARACTERISTIC DEGREE IRREDUCIBLE_POLY in
    Ok result.

(** The loop [for i in range(0, ORDER - 1)] of [_log_calculate], over the
    values of [i] still to come.  [i] is the value the variable holds so far
    ([None] before the first iteration); the loop returns the value [i] holds
    when it ends, by [break] or by exhausting the range. *)
Fixpoint log_for (todo : list Z) (CHARACTERISTIC DEGREE IRREDUCIBLE_POLY a b result : Z)
    (i : option Z) : option Z :=
  match todo with
  | [] => i
  | i :: todo' =>
      if result =? a then Some i
      else
        let result := MULTIPLY result b CHARACTERISTIC DEGREE IRREDUCIBLE_POLY in
        log_for todo' CHARACTERISTIC DEGREE IRREDUCIBLE_POLY a b result (Some i)
  end.

(** As in [_multiply_calculate], [ORDER] is read for [DEGREE >= 0]. *)
Definition _log_calculate (a b CHARACTERISTIC DEGREE IRREDUCIBLE_POLY : Z) : result Z :=
  if a =? 0 then Raise ArithmeticError
  else
    let ORDER := CHARACTERISTIC ^ DEGREE in
    let result := 1 in
    match log_for (py_range 0 (ORDER - 1)) CHARACTERISTIC DEGREE IRREDUCIBLE_POLY
            a b result None with
    | Some i => Ok i
    | None => Raise UnboundLocalError
    end.

End Globals.

(** [_sqrt] is [a ** (characteristic ** (degree - 1))]; [POWER] is the kernel
    the array's [**] applies. *)
Definition _sqrt (POWER : power_kernel) (a CHARACTERISTIC DEGREE IRREDUCIBLE_POLY : Z)
    : result Z :=
  POWER a (CHARACTERISTIC ^ (DEGREE - 1)) CHARACTERISTIC DEGREE IRREDUCIBLE_POLY.

(** Modelled from the spec: the binding of the globals and of [**], done by
    [FieldArray._func_python] and [FieldArray._func_calculate], which are not
    among the sources.  Under the calculate strategy [MULTIPLY] and
    [RECIPROCAL] are the direct kernels, and the operations of the
    specification are the kernels called through them. *)
Definition multiply : multiply_kernel := _multiply_calculate.

(** Modelled from the spec: [reciprocal] is [_reciprocal_calculate] with
    [MULTIPLY] bound to [multiply]. *)
Definition reciprocal : reciprocal_kernel := _reciprocal_calculate multiply.

(** Modelled from the spec: [divide] is [_divide_calculate] with both globals
    bound. *)
Definition divide : Z -> Z -> Z -> Z -> Z -> result Z :=
  _divide_calculate multiply reciprocal.

(** Modelled from the spec: [power] is [_power_calculate] with both globals
    bound. *)
Definition power : power_kernel := _power_calculate multiply reciprocal.

(** Modelled from the spec: [log] is [_log_calculate] with [MULTIPLY] bound to
    [multiply]. *)
Definition log : Z -> Z -> Z -> Z -> Z -> result Z := _log_calculate multiply.

(** Modelled from the spec: [sqrt] is [_sqrt] with [**] bound to [power]. *)
Definition sqrt : Z -> Z -> Z -> Z -> result Z := _sqrt power.

End GF2m.

(** ** Polynomials over GF(2) as non-negative integers

    Bit [i] of the integer is the coefficient of [x^i]; the sum of two
    polynomials is [Z.lxor] and [2 * a] is [x * a]. *)

(** Carry-less product: the sum of [x^i * a] over the bits [i] set in [b]. *)
Fixpoint clmul_pos (a : Z) (b : positive) : Z :=
  match b with
  | xH => a
  | xO b' => 2 * clmul_pos a b'
  | xI b' => Z.lxor a (2 * clmul_pos a b')
  end.

Definition clmul (a b : Z) : Z :=
  match b with
  | Zpos b' => clmul_pos a b'
  | _ => 0
  end.

(** The sum over [i < k] of [a_i * b_(n-i)]: for [k > n] the coefficient of
    [x^n] in the product of the polynomials [a] and [b]. *)
Fixpoint convolution (a b n : Z) (k : nat) : bool :=
  match k with
  | O => false
  | S k' =>
      xorb (Z.testbit a (Z.of_nat k') && Z.testbit b (n - Z.of_nat k'))
           (convolution a b n k')
  end.

(** One step of long division by [d]: a polynomial of degree at most
    [deg d] loses its term of degree [deg d]. *)
Definition reduce1 (d y : Z) : Z :=
  if 2 ^ Z.log2 d <=? y then Z.lxor y d else y.

(** Remainder of the division by [d], computed from the leading coefficient
    down (Horner). *)
Fixpoint pmod_pos (x : positive) (d : Z) : Z :=
  match x with
  | xH => reduce1 d 1
  | xO x' => reduce1 d (2 * pmod_pos x' d)
  | xI x' => reduce1 d (2 * pmod_pos x' d + 1)
  end.

Definition pmod (x d : Z) : Z :=
  match x with
  | Zpos x' => pmod_pos x' d
  | _ => 0
  end.

(** [p] has degree at least 1 and no factorisation into two polynomials of
    degree at least 1. *)
Definition irreducible (p : Z) : Prop :=
  2 <= p /\ forall a b, 0 <= a -> 0 <= b -> clmul a b = p -> a = 1 \/ b = 1.

(** Trial division by every polynomial of degree between 1 and [deg p - 1]. *)
Definition irreducibleb (p : Z) : bool :=
  (2 <=? p) && forallb (fun d => negb (pmod p d =? 0)) (py_range 2 (2 ^ Z.log2 p)).

(** A field descriptor: degree [m >= 1] and an irreducible polynomial of
    degree [m]. *)
Definition descriptor (m p : Z) : Prop :=
  1 <= m /\ 2 ^ m <= p < 2 ^ (m + 1) /\ irreducible p.

(** [e]-fold product of [a] with itself under a multiplication [mul]. *)
Fixpoint iter_mul (mul : Z -> Z -> Z) (a : Z) (e : nat) : Z :=
  match e with
  | O => 1
  | S e' => mul a (iter_mul mul a e')
  end.

(** Product of a list of elements. *)
Definition prod_list (mul : Z -> Z -> Z) (l : list Z) : Z :=
  fold_right mul 1 l.

(** Multiplication of GF(2^m) with modulus [p], as the kernel computes it. *)
Definition fmul (m p : Z) (a b : Z) : Z := GF2m.multiply a b 2 m p.

Definition repeated_multiply (m p a : Z) (e : nat) : Z := iter_mul (fmul m p) a e.

(** A primitive element generates the multiplicative group: every nonzero
    element is one of its powers. *)
Definition primitive_element (m p b : Z) : Prop :=
  0 < b < 2 ^ m /\
  forall a, 0 < a < 2 ^ m -> exists e : nat, repeated_multiply m p b e = a.

Definition primitive_elementb (m p b : Z) : bool :=
  (0 <? b) && (b <? 2 ^ m) &&
  forallb (fun a =>
             existsb (fun e => repeated_multiply m p b e =? a)
                     (seq 0 (Z.to_nat (2 ^ m - 1))))
          (py_range 1 (2 ^ m)).

(** ** Linear block codes: [galois/code/linear.py]

    A two-dimensional array is its shape and the list of its rows.  The
    argument of both functions is a field array, so the [TypeError] of the
    [isinstance] test cannot occur; [ValueError] is the only exception. *)

Module Linear.

Record ndarray : Type := mk_ndarray {
  nrows : nat;
  ncols : nat;
  rows : list (list Z)
}.

(** The data of an array agree with its shape. *)
Definition well_formed (A : ndarray) : Prop :=
  length (rows A) = nrows A /\ Forall (fun r => length r = ncols A) (rows A).

Inductive raised (A : Type) : Type :=
| Return (a : A)
| ValueError.

Arguments Return {A} a.
Arguments ValueError {A}.

(** A bound of a Python slice on a sequence of length [len]: a negative
    bound counts from the end, and bounds are clipped to the sequence. *)
Definition slice_index (i : Z) (len : nat) : nat :=
  if i <? 0 then Z.to_nat (Z.max 0 (i + Z.of_nat len))
  else Nat.min (Z.to_nat i) len.

(** The bounds of [start:stop]; [stop] is [None] in [start:]. *)
Definition slice_bounds (start : Z) (stop : option Z) (len : nat) : nat * nat :=
  (slice_index start len,
   match stop with
   | Some s => slice_index s len
   | None => len
   end).

Definition slice (start : Z) (stop : option Z) (l : list Z) : list Z :=
  let '(lo, hi) := slice_bounds start stop (length l) in
  firstn (hi - lo) (skipn lo l).

(** [A[:, start:stop]] *)
Definition slice_columns (start : Z) (stop : option Z) (A : ndarray) : ndarray :=
  let '(lo, hi) := slice_bounds start stop (ncols A) in
  {| nrows := nrows A;
     ncols := hi - lo;
     rows := map (slice start stop) (rows A) |}.

(** [A.T] *)
Definition transpose (A : ndarray) : ndarray :=
  {| nrows := ncols A;
     ncols := nrows A;
     rows := map (fun j => map (fun r => nth j r 0) (rows A)) (seq 0 (ncols A)) |}.

(** [-A], with the field's [negative] applied to every element. *)
Definition negate (negative : Z -> Z) (A : ndarray) : ndarray :=
  {| nrows := nrows A;
     ncols := ncols A;
     rows := map (map negative) (rows A) |}.

(** [np.eye(k)] for [k >= 0]. *)
Definition eye (k : nat) : ndarray :=
  {| nrows := k;
     ncols := k;
     rows := map (fun i => map (fun j => if (i =? j)%nat then 1 else 0) (seq 0 k))
                 (seq 0 k) |}.

(** [np.hstack((A, B))]: the rows of [A] and [B] side by side; NumPy raises
    [ValueError] when the numbers of rows differ. *)
Definition hstack (A B : ndarray) : raised ndarray :=
  if (nrows A =? nrows B)%nat then
    Return {| nrows := nrows A;
              ncols := ncols A + ncols B;
              rows := map (fun uv => fst uv ++ snd uv) (combine (rows A) (rows B)) |}
  else ValueError.

Fixpoint list_eqb {A : Type} (eqb : A -> A -> bool) (l1 l2 : list A) : bool :=
  match l1, l2 with
  | [], [] => true
  | x :: l1', y :: l2' => eqb x y && list_eqb eqb l1' l2'
  | _, _ => false
  end.

(** [np.array_equal(A, B)]: the same shape and the same elements. *)
Definition array_equal (A B : ndarray) : bool :=
  (nrows A =? nrows B)%nat && (ncols A =? ncols B)%nat &&
  list_eqb (list_eqb Z.eqb) (rows A) (rows B).

Section FieldArray.

(** The field of the array: the function its unary minus applies to the
    elements, and its [Identity] constructor. *)
Variable negative : Z -> Z.
Variable Identity : Z -> raised ndarray.

Definition generator_to_parity_check_matrix (G : ndarray) : raised ndarray :=
  let k := nrows G in
  let n := ncols G in
  if negb (array_equal (slice_columns 0 (Some (Z.of_nat k)) G) (eye k)) then
    ValueError
  else
    let P := slice_columns (Z.of_nat k) None G in
    match Identity (Z.of_nat n - Z.of_nat k) with
    | Return I_ => hstack (negate negative (transpose P)) I_
    | ValueError => ValueError
    end.

(** [n - k] is [n_k], which is not negative, so [np.eye(n - k)] is defined. *)
Definition parity_check_to_generator_matrix (H : ndarray) : raised ndarray :=
  let n_k := nrows H in
  let n := ncols H in
  let k := Z.of_nat n - Z.of_nat n_k in
  if negb (array_equal (slice_columns k None H)
                       (eye (Z.to_nat (Z.of_nat n - k)))) then
    ValueError
  else
    let P := negate negative (transpose (slice_columns 0 (Some k) H)) in
    match Identity k with
    | Return I_ => hstack I_ P
    | ValueError => ValueError
    end.

End FieldArray.

(** The scalar product of two rows, with the field's addition and
    multiplication. *)
Definition dot (add mul : Z -> Z -> Z) (u v : list Z) : Z :=
  fold_right add 0 (map (fun xy => mul (fst xy) (snd xy)) (combine u v)).

End Linear.

(** The element in row [i] and column [j] of an array. *)
Abbreviation entry A i j := (nth j (nth i (Linear.rows A) []) 0).

(** ** Bits, bounds and degrees *)

Lemma double_lxor a b : 2 * Z.lxor a b = Z.lxor (2 * a) (2 * b).
Proof.
  rewrite !(Z.mul_comm 2).
  change 2 with (2 ^ 1).
  rewrite <- !Z.shiftl_mul_pow2 by lia.
  apply Z.shiftl_lxor.
Qed.

Lemma succ_double_lxor a : 2 * a + 1 = Z.lxor (2 * a) 1.
Proof.
  apply Z.add_nocarry_lxor.
  apply Z.bits_inj'. intros n Hn.
  rewrite Z.land_spec, Z.bits_0.
  destruct (Z.eq_dec n 0) as [->|Hne].
  - rewrite Z.testbit_even_0. reflexivity.
  - rewrite andb_comm.
    replace (Z.testbit 1 n) with false; [reflexivity|].
    symmetry. apply Z.bits_above_log2; simpl; lia.
Qed.

Lemma lxor_nn a b : 0 <= a -> 0 <= b -> 0 <= Z.lxor a b.
Proof. intros. apply Z.lxor_nonneg. tauto. Qed.

(** Equations between sums of polynomials, up to associativity,
    commutativity and [a + a = 0]. *)
Ltac xor_ac :=
  apply Z.bits_inj'; intros ? _; rewrite ?Z.lxor_spec, ?Z.bits_0; btauto.

Lemma lxor_move a b c : Z.lxor a b = c -> a = Z.lxor c b.
Proof.
  intros <-. rewrite Z.lxor_assoc, Z.lxor_nilpotent, Z.lxor_0_r. reflexivity.
Qed.

(** Binary induction on the non-negative integers. *)
Lemma Z_binary_ind (P : Z -> Prop) :
  P 0 ->
  (forall b, 0 < b -> P b -> P (2 * b)) ->
  (forall b, 0 <= b -> P b -> P (2 * b + 1)) ->
  forall b, 0 <= b -> P b.
Proof.
  intros H0 He Ho b Hb.
  destruct b as [|q|q]; [assumption| |lia].
  induction q as [q IH|q IH|].
  - change (Z.pos q~1) with (2 * Z.pos q + 1). apply Ho; [lia|apply IH; lia].
  - change (Z.pos q~0) with (2 * Z.pos q). apply He; [lia|apply IH; lia].
  - change 1 with (2 * 0 + 1). apply Ho; [lia|assumption].
Qed.

Lemma bounded_bits n a i : 0 <= a < 2 ^ n -> n <= i -> Z.testbit a i = false.
Proof.
  intros Ha Hi.
  destruct (Z.eq_dec a 0) as [->|Hne]; [apply Z.bits_0|].
  destruct (Z_lt_le_dec n 0) as [Hn|Hn].
  - rewrite Z.pow_neg_r in Ha by assumption. lia.
  - apply Z.bits_above_log2; [lia|].
    assert (Z.log2 a < n) by (apply Z.log2_lt_pow2; lia). lia.
Qed.

Lemma bits_bounded n a :
  0 <= n -> 0 <= a -> (forall i, n <= i -> Z.testbit a i = false) -> a < 2 ^ n.
Proof.
  intros Hn Ha Hbits.
  destruct (Z_lt_le_dec a (2 ^ n)) as [|Hge]; [assumption|exfalso].
  assert (Hpos : 0 < a) by (pose proof (Z.pow_pos_nonneg 2 n); lia).
  assert (Hlog : n <= Z.log2 a) by (apply Z.log2_le_pow2; lia).
  pose proof (Z.bit_log2 a Hpos) as Hb.
  rewrite Hbits in Hb by assumption. discriminate.
Qed.

Lemma top_bit n a : 0 <= n -> 2 ^ n <= a < 2 ^ (n + 1) -> Z.testbit a n = true.
Proof.
  intros Hn Ha.
  assert (Hpos : 0 < a) by (pose proof (Z.pow_pos_nonneg 2 n); lia).
  replace n with (Z.log2 a); [apply Z.bit_log2; assumption|].
  apply Z.log2_unique; [assumption|]. unfold Z.succ. lia.
Qed.

Lemma lxor_bound n a b :
  0 <= n -> 0 <= a < 2 ^ n -> 0 <= b < 2 ^ n -> 0 <= Z.lxor a b < 2 ^ n.
Proof.
  intros Hn Ha Hb. split; [apply lxor_nn; lia|].
  apply bits_bounded; [assumption|apply lxor_nn; lia|].
  intros i Hi. rewrite Z.lxor_spec.
  rewrite (bounded_bits n a i), (bounded_bits n b i) by assumption.
  reflexivity.
Qed.

(** The leading terms cancel. *)
Lemma lxor_top n a b :
  0 <= n -> 2 ^ n <= a < 2 ^ (n + 1) -> 2 ^ n <= b < 2 ^ (n + 1) ->
  0 <= Z.lxor a b < 2 ^ n.
Proof.
  intros Hn Ha Hb.
  assert (0 < 2 ^ n) by (apply Z.pow_pos_nonneg; lia).
  split; [apply lxor_nn; lia|].
  apply bits_bounded; [assumption|apply lxor_nn; lia|].
  intros i Hi. rewrite Z.lxor_spec.
  destruct (Z.eq_dec i n) as [->|Hne].
  - rewrite !top_bit by assumption. reflexivity.
  - rewrite (bounded_bits (n + 1) a i), (bounded_bits (n + 1) b i) by lia.
    reflexivity.
Qed.

(** The leading term of the larger degree survives. *)
Lemma lxor_keep_top n a b :
  0 <= n -> 2 ^ n <= a < 2 ^ (n + 1) -> 0 <= b < 2 ^ n ->
  2 ^ n <= Z.lxor a b < 2 ^ (n + 1).
Proof.
  intros Hn Ha Hb.
  assert (0 < 2 ^ n) by (apply Z.pow_pos_nonneg; lia).
  assert (H2 : 2 ^ (n + 1) = 2 * 2 ^ n) by (rewrite Z.pow_add_r by lia; lia).
  assert (Hnn : 0 <= Z.lxor a b) by (apply lxor_nn; lia).
  split.
  - destruct (Z_lt_le_dec (Z.lxor a b) (2 ^ n)) as [Hlt|]; [exfalso|assumption].
    assert (Hbit : Z.testbit (Z.lxor a b) n = false)
      by (apply (bounded_bits n); lia).
    rewrite Z.lxor_spec, top_bit, (bounded_bits n b n) in Hbit by lia.
    discriminate.
  - apply lxor_bound; lia.
Qed.

Lemma log2_bounds a : 0 < a -> 2 ^ Z.log2 a <= a < 2 ^ (Z.log2 a + 1).
Proof. intros Ha. apply (Z.log2_spec a Ha). Qed.

Lemma log2_of_bounds n a : 0 <= n -> 2 ^ n <= a < 2 ^ (n + 1) -> Z.log2 a = n.
Proof. intros Hn Ha. apply Z.log2_unique; [assumption|]. unfold Z.succ. lia. Qed.

(** ** The ring of polynomials over GF(2) *)

Lemma clmul_0_r a : clmul a 0 = 0.
Proof. reflexivity. Qed.

Lemma clmul_1_r a : clmul a 1 = a.
Proof. reflexivity. Qed.

Lemma clmul_double_r a b : 0 <= b -> clmul a (2 * b) = 2 * clmul a b.
Proof. intros Hb. destruct b; [reflexivity|reflexivity|lia]. Qed.

Lemma clmul_succ_double_r a b :
  0 <= b -> clmul a (2 * b + 1) = Z.lxor a (2 * clmul a b).
Proof.
  intros Hb. destruct b; [|reflexivity|lia].
  simpl. rewrite Z.lxor_0_r. reflexivity.
Qed.

Lemma clmul_0_l b : clmul 0 b = 0.
Proof.
  destruct b as [|q|q]; try reflexivity.
  cbn [clmul]. induction q as [q IH|q IH|]; cbn [clmul_pos]; rewrite ?IH; reflexivity.
Qed.

Lemma clmul_nn a b : 0 <= a -> 0 <= clmul a b.
Proof.
  intros Ha. destruct b as [|q|q]; cbn [clmul]; try lia.
  induction q as [q IH|q IH|]; cbn [clmul_pos].
  - apply lxor_nn; lia.
  - lia.
  - assumption.
Qed.

Lemma double_nn a : 0 <= a -> 0 <= 2 * a.
Proof. lia. Qed.

Create HintDb gf2.
#[local] Hint Resolve lxor_nn clmul_nn double_nn : gf2.
#[local] Hint Extern 1 (0 <= _) => lia : gf2.

Lemma clmul_double_l a b : 0 <= b -> clmul (2 * a) b = 2 * clmul a b.
Proof.
  intros Hb. revert b Hb. apply Z_binary_ind.
  - reflexivity.
  - intros b Hb IH. rewrite !clmul_double_r, IH by lia. reflexivity.
  - intros b Hb IH. rewrite !clmul_succ_double_r, IH, double_lxor by lia.
    reflexivity.
Qed.

Lemma clmul_succ_double_l a b :
  0 <= b -> clmul (2 * a + 1) b = Z.lxor b (2 * clmul a b).
Proof.
  intros Hb. revert b Hb. apply Z_binary_ind.
  - reflexivity.
  - intros b Hb IH. rewrite !clmul_double_r, IH, double_lxor by lia.
    reflexivity.
  - intros b Hb IH. rewrite !clmul_succ_double_r, IH by lia.
    rewrite !double_lxor, !succ_double_lxor. xor_ac.
Qed.

Lemma clmul_comm a b : 0 <= a -> 0 <= b -> clmul a b = clmul b a.
Proof.
  intros Ha Hb. revert b Hb. apply Z_binary_ind.
  - rewrite clmul_0_l. reflexivity.
  - intros b Hb IH. rewrite clmul_double_r, clmul_double_l, IH by lia.
    reflexivity.
  - intros b Hb IH. rewrite clmul_succ_double_r, clmul_succ_double_l, IH by lia.
    reflexivity.
Qed.

Lemma clmul_1_l b : 0 <= b -> clmul 1 b = b.
Proof. intros Hb. rewrite clmul_comm by lia. apply clmul_1_r. Qed.

Lemma clmul_lxor_l a a' b :
  clmul (Z.lxor a a') b = Z.lxor (clmul a b) (clmul a' b).
Proof.
  destruct b as [|q|q]; try reflexivity.
  cbn [clmul]. induction q as [q IH|q IH|]; cbn [clmul_pos].
  - rewrite IH, double_lxor. xor_ac.
  - rewrite IH. apply double_lxor.
  - reflexivity.
Qed.

Lemma clmul_lxor_r a b b' :
  0 <= a -> 0 <= b -> 0 <= b' ->
  clmul a (Z.lxor b b') = Z.lxor (clmul a b) (clmul a b').
Proof.
  intros Ha Hb Hb'.
  rewrite (clmul_comm a (Z.lxor b b')), clmul_lxor_l by auto with gf2.
  rewrite (clmul_comm b a), (clmul_comm b' a) by assumption.
  reflexivity.
Qed.

Lemma clmul_assoc a b c :
  0 <= a -> 0 <= b -> 0 <= c -> clmul (clmul a b) c = clmul a (clmul b c).
Proof.
  intros Ha Hb Hc. revert c Hc. apply Z_binary_ind.
  - reflexivity.
  - intros c Hc IH. rewrite !clmul_double_r, IH by auto with gf2.
    reflexivity.
  - intros c Hc IH.
    rewrite !clmul_succ_double_r, IH, clmul_lxor_r, clmul_double_r
      by auto with gf2.
    reflexivity.
Qed.

(** *** The coefficients of the carry-less product *)

Lemma testbit_double x j : Z.testbit (2 * x) j = Z.testbit x (j - 1).
Proof.
  destruct (Z_lt_le_dec j 1) as [Hlt|Hge].
  - rewrite (Z.testbit_neg_r x) by lia.
    destruct (Z.eq_dec j 0) as [->|]; [apply Z.testbit_even_0|].
    apply Z.testbit_neg_r. lia.
  - replace j with (Z.succ (j - 1)) at 1 by lia.
    apply Z.testbit_even_succ. lia.
Qed.

Lemma testbit_succ_double x j :
  Z.testbit (2 * x + 1) j = if j =? 0 then true else Z.testbit x (j - 1).
Proof.
  destruct (Z.eqb_spec j 0) as [->|Hne]; [apply Z.testbit_odd_0|].
  destruct (Z_lt_le_dec j 0) as [Hlt|Hge].
  - rewrite !Z.testbit_neg_r by lia. reflexivity.
  - replace j with (Z.succ (j - 1)) at 1 by lia.
    apply Z.testbit_odd_succ. lia.
Qed.

Lemma convolution_0_r a n k : convolution a 0 n k = false.
Proof.
  induction k as [|k IH]; cbn [convolution]; [reflexivity|].
  rewrite IH, Z.bits_0, andb_false_r. reflexivity.
Qed.

Lemma convolution_double a b n k :
  convolution a (2 * b) n k = convolution a b (n - 1) k.
Proof.
  induction k as [|k IH]; cbn [convolution]; [reflexivity|].
  rewrite IH, testbit_double. do 3 f_equal. lia.
Qed.

Lemma convolution_succ_double a b n k :
  0 <= n ->
  convolution a (2 * b + 1) n k
  = xorb ((Z.to_nat n <? k)%nat && Z.testbit a n) (convolution a b (n - 1) k).
Proof.
  intros Hn. induction k as [|k IH]; [reflexivity|].
  cbn [convolution]. rewrite IH, testbit_succ_double.
  replace (n - 1 - Z.of_nat k) with (n - Z.of_nat k - 1) by lia.
  destruct (Z.eqb_spec (n - Z.of_nat k) 0) as [Heq|Hne].
  - replace (Z.of_nat k) with n by lia.
    replace (n - n - 1) with (-1) by lia.
    rewrite (Z.testbit_neg_r b (-1)) by lia.
    destruct (Nat.ltb_spec (Z.to_nat n) k); [lia|].
    destruct (Nat.ltb_spec (Z.to_nat n) (S k)); [|lia].
    cbn [andb]. btauto.
  - destruct (Nat.ltb_spec (Z.to_nat n) k);
      destruct (Nat.ltb_spec (Z.to_nat n) (S k)); try lia; btauto.
Qed.

(** Terms beyond [i = n] do not count. *)
Lemma convolution_extra a b n k :
  n < Z.of_nat k -> convolution a b n (S k) = convolution a b n k.
Proof.
  intros Hk. cbn [convolution].
  rewrite (Z.testbit_neg_r b) by lia. rewrite andb_false_r. reflexivity.
Qed.

(** Coefficient [n] of [clmul a b] is the sum of the [a_i * b_(n-i)]:
    [clmul] is the product of polynomials over GF(2). *)
Lemma clmul_testbit a b :
  0 <= b -> forall n, 0 <= n ->
  Z.testbit (clmul a b) n = convolution a b n (S (Z.to_nat n)).
Proof.
  intros Hb. revert b Hb.
  apply (Z_binary_ind (fun b => forall n, 0 <= n ->
    Z.testbit (clmul a b) n = convolution a b n (S (Z.to_nat n)))).
  - intros n Hn. rewrite clmul_0_r, convolution_0_r. apply Z.bits_0.
  - intros b Hb IH n Hn.
    rewrite clmul_double_r, testbit_double, convolution_double by lia.
    destruct (Z.eq_dec n 0) as [->|Hne].
    + cbn [convolution Z.to_nat Z.of_nat].
      rewrite (Z.testbit_neg_r b), andb_false_r by lia.
      apply Z.testbit_neg_r. lia.
    + rewrite IH by lia.
      replace (S (Z.to_nat n)) with (S (S (Z.to_nat (n - 1)))) by lia.
      rewrite (convolution_extra a b (n - 1) (S (Z.to_nat (n - 1)))) by lia.
      reflexivity.
  - intros b Hb IH n Hn.
    rewrite clmul_succ_double_r, Z.lxor_spec, testbit_double,
      convolution_succ_double by lia.
    destruct (Nat.ltb_spec (Z.to_nat n) (S (Z.to_nat n))); [|lia].
    cbn [andb]. f_equal.
    destruct (Z.eq_dec n 0) as [->|Hne].
    + cbn [convolution Z.to_nat Z.of_nat].
      rewrite (Z.testbit_neg_r b), andb_false_r by lia.
      apply Z.testbit_neg_r. lia.
    + rewrite IH by lia.
      replace (S (Z.to_nat n)) with (S (S (Z.to_nat (n - 1)))) by lia.
      rewrite (convolution_extra a b (n - 1) (S (Z.to_nat (n - 1)))) by lia.
      reflexivity.
Qed.

(** Degrees add: the polynomial ring has no zero divisors. *)
Lemma clmul_degree a b :
  0 < a -> 0 < b ->
  0 < clmul a b /\ Z.log2 (clmul a b) = Z.log2 a + Z.log2 b.
Proof.
  intros Ha Hb. assert (Hb' : 0 <= b) by lia. revert b Hb' Hb.
  apply (Z_binary_ind (fun b => 0 < b ->
           0 < clmul a b /\ Z.log2 (clmul a b) = Z.log2 a + Z.log2 b)).
  - lia.
  - intros b Hb IH _. destruct (IH Hb) as [Hpos Hlog].
    rewrite clmul_double_r by lia. split; [lia|].
    rewrite !Z.log2_double, Hlog by lia. lia.
  - intros b Hb IH _.
    destruct (Z.eq_dec b 0) as [->|Hne].
    + simpl. split; [assumption|lia].
    + destruct IH as [Hpos Hlog]; [lia|].
      rewrite clmul_succ_double_r by lia.
      rewrite Z.log2_succ_double by lia.
      pose proof (Z.log2_nonneg a). pose proof (Z.log2_nonneg b).
      assert (Hdeg : Z.log2 (2 * clmul a b) = Z.log2 a + Z.log2 b + 1)
        by (rewrite Z.log2_double, Hlog by lia; lia).
      pose proof (log2_bounds (2 * clmul a b) ltac:(lia)) as Hbd.
      rewrite Hdeg in Hbd.
      pose proof (log2_bounds a Ha) as Hbda.
      assert (Hlt : a < 2 ^ (Z.log2 a + Z.log2 b + 1)).
      { apply Z.lt_le_trans with (2 ^ (Z.log2 a + 1)); [lia|].
        apply Z.pow_le_mono_r; lia. }
      rewrite Z.lxor_comm.
      pose proof (lxor_keep_top (Z.log2 a + Z.log2 b + 1) (2 * clmul a b) a
                    ltac:(lia) Hbd ltac:(lia)) as Hk.
      assert (0 < 2 ^ (Z.log2 a + Z.log2 b + 1)) by (apply Z.pow_pos_nonneg; lia).
      split; [lia|].
      rewrite (log2_of_bounds (Z.log2 a + Z.log2 b + 1)) by (assumption || lia).
      unfold Z.succ. lia.
Qed.

(** A nonzero multiple of [d] has at least the degree of [d]. *)
Lemma clmul_ge q d : 0 < q -> 0 < d -> 2 ^ Z.log2 d <= clmul q d.
Proof.
  intros Hq Hd. destruct (clmul_degree q d Hq Hd) as [Hpos Hlog].
  pose proof (log2_bounds _ Hpos) as Hb. rewrite Hlog in Hb.
  pose proof (Z.log2_nonneg q). pose proof (Z.log2_nonneg d).
  apply Z.le_trans with (2 ^ (Z.log2 q + Z.log2 d)); [|lia].
  apply Z.pow_le_mono_r; lia.
Qed.

(** ** Division with remainder *)

Lemma pmod_0 d : pmod 0 d = 0.
Proof. reflexivity. Qed.

Lemma pmod_double x d : 0 < x -> pmod (2 * x) d = reduce1 d (2 * pmod x d).
Proof. intros Hx. destruct x; [lia|reflexivity|lia]. Qed.

Lemma pmod_succ_double x d :
  0 <= x -> pmod (2 * x + 1) d = reduce1 d (2 * pmod x d + 1).
Proof. intros Hx. destruct x; [reflexivity|reflexivity|lia]. Qed.

Lemma reduce1_spec d y :
  0 < d -> 0 <= y < 2 ^ (Z.log2 d + 1) ->
  0 <= reduce1 d y < 2 ^ Z.log2 d /\
  exists e, 0 <= e /\ y = Z.lxor (clmul e d) (reduce1 d y).
Proof.
  intros Hd Hy. unfold reduce1.
  pose proof (log2_bounds d Hd) as Hbd. pose proof (Z.log2_nonneg d).
  destruct (Z.leb_spec (2 ^ Z.log2 d) y) as [Hge|Hlt].
  - split; [apply lxor_top; lia|].
    exists 1. split; [lia|]. rewrite clmul_1_l by lia. xor_ac.
  - split; [lia|].
    exists 0. split; [lia|]. rewrite clmul_0_l. xor_ac.
Qed.

Lemma pmod_spec x d :
  0 < d -> 0 <= x ->
  0 <= pmod x d < 2 ^ Z.log2 d /\
  exists q, 0 <= q /\ x = Z.lxor (clmul q d) (pmod x d).
Proof.
  intros Hd Hx. pose proof (Z.log2_nonneg d) as Hn.
  assert (H2 : 2 ^ (Z.log2 d + 1) = 2 * 2 ^ Z.log2 d)
    by (rewrite Z.pow_add_r by lia; lia).
  assert (Hstep : forall x r q y,
             0 <= r < 2 ^ Z.log2 d -> 0 <= q ->
             x = Z.lxor (clmul q d) r ->
             (y = 2 * r \/ y = 2 * r + 1) ->
             0 <= reduce1 d y < 2 ^ Z.log2 d /\
             exists q', 0 <= q' /\
               Z.lxor (2 * x) (y - 2 * r) = Z.lxor (clmul q' d) (reduce1 d y)).
  { intros x0 r q y Hr Hq Hx0 Hy.
    destruct (reduce1_spec d y Hd ltac:(lia)) as [Hbound [e [He Hey]]].
    split; [assumption|].
    exists (Z.lxor (2 * q) e). split; [auto with gf2|].
    rewrite clmul_lxor_l, clmul_double_l by lia.
    assert (Hy' : Z.lxor (2 * r) (y - 2 * r) = y).
    { destruct Hy as [->| ->].
      - replace (2 * r - 2 * r) with 0 by lia. xor_ac.
      - replace (2 * r + 1 - 2 * r) with 1 by lia.
        symmetry. apply succ_double_lxor. }
    rewrite Hx0, double_lxor.
    transitivity (Z.lxor (2 * clmul q d) (Z.lxor (2 * r) (y - 2 * r)));
      [xor_ac|].
    rewrite Hy'. rewrite Hey at 1. xor_ac. }
  revert x Hx. apply Z_binary_ind.
  - rewrite pmod_0. split; [pose proof (Z.pow_pos_nonneg 2 (Z.log2 d)); lia|].
    exists 0. split; [lia|]. rewrite clmul_0_l. reflexivity.
  - intros x Hx [Hr [q [Hq Hxq]]].
    rewrite pmod_double by assumption.
    destruct (Hstep x (pmod x d) q (2 * pmod x d) Hr Hq Hxq ltac:(lia))
      as [Hb [q' [Hq' Heq]]].
    split; [assumption|]. exists q'. split; [assumption|].
    rewrite <- Heq. replace (2 * pmod x d - 2 * pmod x d) with 0 by lia.
    xor_ac.
  - intros x Hx [Hr [q [Hq Hxq]]].
    rewrite pmod_succ_double by assumption.
    destruct (Hstep x (pmod x d) q (2 * pmod x d + 1) Hr Hq Hxq ltac:(lia))
      as [Hb [q' [Hq' Heq]]].
    split; [assumption|]. exists q'. split; [assumption|].
    rewrite <- Heq. replace (2 * pmod x d + 1 - 2 * pmod x d) with 1 by lia.
    apply succ_double_lxor.
Qed.

Lemma pmod_nn x d : 0 < d -> 0 <= pmod x d.
Proof.
  intros Hd. destruct (Z_lt_le_dec x 0) as [Hneg|Hx].
  - destruct x; try lia. simpl. lia.
  - apply pmod_spec; assumption.
Qed.

Lemma pmod_bound x d : 0 < d -> 0 <= x -> 0 <= pmod x d < 2 ^ Z.log2 d.
Proof. intros Hd Hx. apply pmod_spec; assumption. Qed.

(** The remainder is unique. *)
Lemma pmod_unique d q r x :
  0 < d -> 0 <= q -> 0 <= r < 2 ^ Z.log2 d ->
  x = Z.lxor (clmul q d) r -> pmod x d = r.
Proof.
  intros Hd Hq Hr Hx.
  assert (Hxnn : 0 <= x) by (subst x; auto with gf2).
  destruct (pmod_spec x d Hd Hxnn) as [Hr' [q' [Hq' Hx']]].
  set (r' := pmod x d) in *.
  assert (Hdiff : clmul (Z.lxor q q') d = Z.lxor r r').
  { rewrite clmul_lxor_l.
    assert (Hc : clmul q d = Z.lxor (Z.lxor (clmul q' d) r') r)
      by (apply lxor_move; congruence).
    rewrite Hc. xor_ac. }
  pose proof (Z.log2_nonneg d).
  assert (Hsmall : 0 <= Z.lxor r r' < 2 ^ Z.log2 d) by (apply lxor_bound; lia).
  assert (Hqq : 0 <= Z.lxor q q') by auto with gf2.
  destruct (Z.eq_dec (Z.lxor q q') 0) as [Hz|Hnz].
  - rewrite Hz, clmul_0_l in Hdiff.
    symmetry in Hdiff. apply Z.lxor_eq in Hdiff. congruence.
  - pose proof (clmul_ge (Z.lxor q q') d ltac:(lia) Hd). lia.
Qed.

Lemma pmod_small x d : 0 < d -> 0 <= x < 2 ^ Z.log2 d -> pmod x d = x.
Proof.
  intros Hd Hx. apply (pmod_unique d 0); try lia.
  rewrite clmul_0_l. xor_ac.
Qed.

Lemma pmod_multiple q d : 0 < d -> 0 <= q -> pmod (clmul q d) d = 0.
Proof.
  intros Hd Hq. apply (pmod_unique d q); try lia.
  - pose proof (Z.pow_pos_nonneg 2 (Z.log2 d) ltac:(lia) (Z.log2_nonneg d)). lia.
  - xor_ac.
Qed.

Lemma pmod_lxor x y d :
  0 < d -> 0 <= x -> 0 <= y ->
  pmod (Z.lxor x y) d = Z.lxor (pmod x d) (pmod y d).
Proof.
  intros Hd Hx Hy.
  destruct (pmod_spec x d Hd Hx) as [Hrx [qx [Hqx Hex]]].
  destruct (pmod_spec y d Hd Hy) as [Hry [qy [Hqy Hey]]].
  apply (pmod_unique d (Z.lxor qx qy)); auto with gf2.
  - apply lxor_bound; [apply Z.log2_nonneg|assumption|assumption].
  - rewrite clmul_lxor_l. rewrite Hex at 1. rewrite Hey at 1. xor_ac.
Qed.

Lemma pmod_clmul_l x y d :
  0 < d -> 0 <= x -> 0 <= y ->
  pmod (clmul (pmod x d) y) d = pmod (clmul x y) d.
Proof.
  intros Hd Hx Hy.
  destruct (pmod_spec x d Hd Hx) as [Hrx [q [Hq Hex]]].
  rewrite Hex at 2.
  rewrite clmul_lxor_l, pmod_lxor by auto with gf2.
  rewrite (clmul_assoc q d y), (clmul_comm d y), <- (clmul_assoc q y d)
    by auto with gf2.
  rewrite pmod_multiple by auto with gf2.
  apply Z.lxor_0_l.
Qed.


Lemma reduce1_pmod d y :
  0 < d -> 0 <= y < 2 ^ (Z.log2 d + 1) -> reduce1 d y = pmod y d.
Proof.
  intros Hd Hy.
  destruct (reduce1_spec d y Hd Hy) as [Hb [e [He Hey]]].
  symmetry. apply (pmod_unique d e); assumption.
Qed.

(** ** The multiplication kernel *)

Lemma land_1 x : Z.land x 1 = x mod 2.
Proof. exact (Z.land_ones x 1 ltac:(lia)). Qed.

Lemma shiftr_1 x : Z.shiftr x 1 = x / 2.
Proof. exact (Z.shiftr_div_pow2 x 1 ltac:(lia)). Qed.

Lemma shiftl_1 x : Z.shiftl x 1 = 2 * x.
Proof. rewrite Z.shiftl_mul_pow2 by lia. change (2 ^ 1) with 2. lia. Qed.

(** More fuel than [Z.to_nat b] changes nothing. *)
Lemma multiply_while_fuel ORDER P f1 : forall f2 a b c,
  (Z.to_nat b <= f1)%nat -> (Z.to_nat b <= f2)%nat ->
  GF2m.multiply_while f1 ORDER P a b c = GF2m.multiply_while f2 ORDER P a b c.
Proof.
  induction f1 as [|f1 IH]; intros f2 a b c H1 H2.
  - destruct f2; simpl; destruct (Z.gtb_spec b 0); try reflexivity; lia.
  - destruct f2; simpl; destruct (Z.gtb_spec b 0); try reflexivity; try lia.
    apply IH; rewrite shiftr_1; apply Nat2Z.inj_le;
      rewrite Z2Nat.id by (apply Z.div_pos; lia);
      pose proof (Z.div_lt_upper_bound b 2 b); lia.
Qed.

(** The equation of the loop [while b > 0]. *)
Lemma multiply_while_eq ORDER P a b c :
  GF2m.multiply_while (Z.to_nat b) ORDER P a b c =
  if b >? 0 then
    let c' := if negb (Z.land b 1 =? 0) then Z.lxor c a else c in
    let b' := Z.shiftr b 1 in
    let a' := Z.shiftl a 1 in
    let a'' := if a' >=? ORDER then Z.lxor a' P else a' in
    GF2m.multiply_while (Z.to_nat b') ORDER P a'' b' c'
  else c.
Proof.
  destruct (Z.to_nat b) as [|f] eqn:Hf.
  - simpl. destruct (Z.gtb_spec b 0); [lia|reflexivity].
  - simpl. destruct (Z.gtb_spec b 0); [|reflexivity].
    apply multiply_while_fuel; [|lia].
    rewrite shiftr_1. apply Nat2Z.inj_le.
    rewrite Z2Nat.id by (apply Z.div_pos; lia).
    pose proof (Z.div_lt_upper_bound b 2 b). lia.
Qed.

Section Multiply.

Variables m p : Z.
Hypothesis Hm : 0 <= m.
Hypothesis Hp : 2 ^ m <= p < 2 ^ (m + 1).

Lemma modulus_pos : 0 < p.
Proof. pose proof (Z.pow_pos_nonneg 2 m). lia. Qed.

Lemma modulus_degree : Z.log2 p = m.
Proof. apply log2_of_bounds; assumption. Qed.

(** The reduction step of the loop is a step of the division by [p]. *)
Lemma reduce_step a :
  0 <= a < 2 ^ m ->
  (if Z.shiftl a 1 >=? 2 ^ m then Z.lxor (Z.shiftl a 1) p else Z.shiftl a 1)
  = pmod (2 * a) p.
Proof.
  intros Ha. pose proof modulus_pos. rewrite shiftl_1, Z.geb_leb.
  rewrite <- reduce1_pmod; [unfold reduce1; rewrite modulus_degree; reflexivity|lia|].
  rewrite modulus_degree, Z.pow_add_r by lia. lia.
Qed.

(** The loop adds to [c] the product of [a] and [b] modulo [p]. *)
Lemma multiply_while_correct b :
  0 <= b -> forall a c, 0 <= a < 2 ^ m ->
  GF2m.multiply_while (Z.to_nat b) (2 ^ m) p a b c = Z.lxor c (pmod (clmul a b) p).
Proof.
  intros Hb. pose proof modulus_pos. revert b Hb.
  apply (Z_binary_ind (fun b => forall a c, 0 <= a < 2 ^ m ->
    GF2m.multiply_while (Z.to_nat b) (2 ^ m) p a b c
    = Z.lxor c (pmod (clmul a b) p))).
  - intros a c Ha. simpl. rewrite Z.lxor_0_r. reflexivity.
  - intros b Hb IH a c Ha.
    rewrite multiply_while_eq. cbv zeta.
    destruct (Z.gtb_spec (2 * b) 0); [|lia].
    rewrite land_1, shiftr_1, reduce_step by assumption.
    replace ((2 * b) mod 2) with 0 by (apply Z.mod_unique with b; lia).
    replace (2 * b / 2) with b by (apply Z.div_unique with 0; lia).
    simpl negb. cbv iota.
    rewrite IH by (rewrite <- modulus_degree; apply pmod_bound; lia).
    rewrite pmod_clmul_l, clmul_double_l, clmul_double_r by lia.
    reflexivity.
  - intros b Hb IH a c Ha.
    rewrite multiply_while_eq. cbv zeta.
    destruct (Z.gtb_spec (2 * b + 1) 0); [|lia].
    rewrite land_1, shiftr_1, reduce_step by assumption.
    replace ((2 * b + 1) mod 2) with 1 by (apply Z.mod_unique with b; lia).
    replace ((2 * b + 1) / 2) with b by (apply Z.div_unique with 1; lia).
    simpl negb. cbv iota.
    rewrite IH by (rewrite <- modulus_degree; apply pmod_bound; lia).
    rewrite pmod_clmul_l, clmul_double_l, clmul_succ_double_r by lia.
    rewrite pmod_lxor by auto with gf2.
    rewrite (pmod_small a) by (rewrite ?modulus_degree; lia).
    xor_ac.
Qed.

(** The kernel computes the product of the two polynomials modulo [p]. *)
Lemma multiply_pmod a b :
  0 <= a < 2 ^ m -> 0 <= b < 2 ^ m ->
  GF2m._multiply_calculate a b 2 m p = pmod (clmul a b) p.
Proof.
  intros Ha Hb. unfold GF2m._multiply_calculate.
  destruct (b >? a).
  - rewrite multiply_while_correct, Z.lxor_0_l by lia.
    rewrite clmul_comm by lia. reflexivity.
  - rewrite multiply_while_correct, Z.lxor_0_l by lia. reflexivity.
Qed.

Lemma fmul_pmod a b :
  0 <= a < 2 ^ m -> 0 <= b < 2 ^ m -> fmul m p a b = pmod (clmul a b) p.
Proof. apply multiply_pmod. Qed.

Lemma pmod_range x : 0 <= x -> 0 <= pmod x p < 2 ^ m.
Proof.
  intros Hx. pose proof modulus_pos.
  rewrite <- modulus_degree. apply pmod_bound; assumption.
Qed.

Lemma fmul_range a b :
  0 <= a < 2 ^ m -> 0 <= b < 2 ^ m -> 0 <= fmul m p a b < 2 ^ m.
Proof.
  intros Ha Hb. rewrite fmul_pmod by assumption.
  apply pmod_range. auto with gf2.
Qed.

End Multiply.

(** ** Ranges *)

Lemma In_py_range lo hi x : In x (py_range lo hi) <-> lo <= x < hi.
Proof.
  unfold py_range. rewrite in_map_iff. split.
  - intros [k [<- Hk]]. apply in_seq in Hk. lia.
  - intros Hx. exists (Z.to_nat (x - lo)). split; [lia|].
    apply in_seq. lia.
Qed.

Lemma NoDup_py_range lo hi : NoDup (py_range lo hi).
Proof.
  unfold py_range. apply Finite.Injective_map_NoDup_in; [|apply seq_NoDup].
  intros x y _ _ Heq. lia.
Qed.

Lemma length_py_range lo hi : length (py_range lo hi) = Z.to_nat (hi - lo).
Proof. unfold py_range. rewrite length_map, length_seq. reflexivity. Qed.

(** ** Kernels over a commutative monoid

    The composite kernels only use that the multiplication they call is a
    commutative monoid on the elements [0 .. q-1]. *)

Section Monoid.

Variable q : Z.
Variable mul : Z -> Z -> Z.

Hypothesis Hq : 2 <= q.
Hypothesis mul_closed :
  forall a b, 0 <= a < q -> 0 <= b < q -> 0 <= mul a b < q.
Hypothesis mul_comm :
  forall a b, 0 <= a < q -> 0 <= b < q -> mul a b = mul b a.
Hypothesis mul_assoc :
  forall a b c, 0 <= a < q -> 0 <= b < q -> 0 <= c < q ->
  mul (mul a b) c = mul a (mul b c).
Hypothesis mul_1_l : forall a, 0 <= a < q -> mul 1 a = a.

Lemma mul_1_r a : 0 <= a < q -> mul a 1 = a.
Proof. intros Ha. rewrite mul_comm by lia. apply mul_1_l; assumption. Qed.

Lemma iter_mul_closed a e : 0 <= a < q -> 0 <= iter_mul mul a e < q.
Proof.
  intros Ha. induction e as [|e IH]; simpl; [lia|].
  apply mul_closed; assumption.
Qed.

Lemma iter_mul_add a e1 e2 :
  0 <= a < q ->
  iter_mul mul a (e1 + e2) = mul (iter_mul mul a e1) (iter_mul mul a e2).
Proof.
  intros Ha. induction e1 as [|e1 IH]; simpl.
  - rewrite mul_1_l by (apply iter_mul_closed; assumption). reflexivity.
  - rewrite IH, mul_assoc by (assumption || apply iter_mul_closed; assumption).
    reflexivity.
Qed.

Lemma iter_mul_S_r a e :
  0 <= a < q -> iter_mul mul a (S e) = mul (iter_mul mul a e) a.
Proof.
  intros Ha. simpl. apply mul_comm; [assumption|].
  apply iter_mul_closed; assumption.
Qed.

Lemma mul4 a b c d :
  0 <= a < q -> 0 <= b < q -> 0 <= c < q -> 0 <= d < q ->
  mul (mul a b) (mul c d) = mul (mul a c) (mul b d).
Proof.
  intros Ha Hb Hc Hd.
  rewrite (mul_assoc a b), (mul_assoc a c) by auto.
  f_equal.
  rewrite <- (mul_assoc b c), <- (mul_assoc c b), (mul_comm b c) by auto.
  reflexivity.
Qed.

Lemma iter_mul_base a b e :
  0 <= a < q -> 0 <= b < q ->
  iter_mul mul (mul a b) e = mul (iter_mul mul a e) (iter_mul mul b e).
Proof.
  intros Ha Hb. induction e as [|e IH]; simpl.
  - rewrite mul_1_l by lia. reflexivity.
  - rewrite IH. apply mul4; auto using iter_mul_closed.
Qed.

Lemma iter_mul_square a e :
  0 <= a < q -> iter_mul mul (mul a a) e = iter_mul mul a (2 * e).
Proof.
  intros Ha. rewrite iter_mul_base by assumption.
  replace (2 * e)%nat with (e + e)%nat by lia.
  rewrite iter_mul_add by assumption. reflexivity.
Qed.

Lemma iter_mul_one e : iter_mul mul 1 e = 1.
Proof.
  induction e as [|e IH]; simpl; [reflexivity|].
  rewrite IH. apply mul_1_l. lia.
Qed.

Lemma iter_mul_mul a e1 e2 :
  0 <= a < q ->
  iter_mul mul a (e1 * e2) = iter_mul mul (iter_mul mul a e1) e2.
Proof.
  intros Ha. induction e2 as [|e2 IH]; simpl.
  - rewrite Nat.mul_0_r. reflexivity.
  - rewrite <- IH, <- iter_mul_add by assumption. f_equal. lia.
Qed.

(** *** Fields: every nonzero element has an inverse *)

Hypothesis mul_0_l : forall a, 0 <= a < q -> mul 0 a = 0.
Hypothesis mul_inv : forall a, 0 < a < q -> exists b, 0 <= b < q /\ mul a b = 1.

Lemma mul_cancel_l a x y :
  0 < a < q -> 0 <= x < q -> 0 <= y < q -> mul a x = mul a y -> x = y.
Proof.
  intros Ha Hx Hy Heq.
  destruct (mul_inv a Ha) as [a' [Ha' Hinv]].
  rewrite <- (mul_1_l x), <- (mul_1_l y), <- Hinv by assumption.
  rewrite (mul_comm a a'), !mul_assoc, Heq by lia.
  reflexivity.
Qed.

Lemma mul_nonzero a b : 0 < a < q -> 0 < b < q -> 0 < mul a b < q.
Proof.
  intros Ha Hb.
  pose proof (mul_closed a b ltac:(lia) ltac:(lia)) as Hc.
  destruct (Z.eq_dec (mul a b) 0) as [Hz|]; [exfalso|lia].
  assert (Hb0 : b = 0); [|lia].
  apply (mul_cancel_l a); try lia.
  rewrite Hz, mul_comm, mul_0_l by lia. reflexivity.
Qed.

Lemma iter_mul_nonzero a e : 0 < a < q -> 0 < iter_mul mul a e < q.
Proof.
  intros Ha. induction e as [|e IH]; simpl; [lia|].
  apply mul_nonzero; assumption.
Qed.

Lemma prod_list_closed l :
  Forall (fun x => 0 <= x < q) l -> 0 <= prod_list mul l < q.
Proof.
  induction 1 as [|x l Hx Hl IH]; simpl; [lia|].
  apply mul_closed; assumption.
Qed.

Lemma prod_list_nonzero l :
  Forall (fun x => 0 < x < q) l -> 0 < prod_list mul l < q.
Proof.
  induction 1 as [|x l Hx Hl IH]; simpl; [lia|].
  apply mul_nonzero; assumption.
Qed.

Lemma prod_list_perm l l' :
  Permutation l l' -> Forall (fun x => 0 <= x < q) l ->
  prod_list mul l = prod_list mul l'.
Proof.
  induction 1 as [|x l l' Hp IH|x y l|l l' l'' Hp1 IH1 Hp2 IH2]; intros HF.
  - reflexivity.
  - simpl. apply Forall_cons_iff in HF as [_ HF].
    rewrite IH by assumption. reflexivity.
  - simpl. apply Forall_cons_iff in HF as [Hy HF].
    apply Forall_cons_iff in HF as [Hx HF].
    pose proof (prod_list_closed l HF).
    rewrite <- !mul_assoc, (mul_comm y x) by assumption. reflexivity.
  - rewrite IH1 by assumption. apply IH2.
    apply (Permutation_Forall Hp1). assumption.
Qed.

Lemma prod_list_map_mul a l :
  0 <= a < q -> Forall (fun x => 0 <= x < q) l ->
  prod_list mul (map (mul a) l)
  = mul (iter_mul mul a (length l)) (prod_list mul l).
Proof.
  intros Ha. induction 1 as [|x l Hx Hl IH]; simpl.
  - rewrite mul_1_l by lia. reflexivity.
  - rewrite IH.
    apply mul4; auto using iter_mul_closed, prod_list_closed.
Qed.

(** Multiplication by a nonzero element permutes the nonzero elements, so
    the product of all of them is unchanged: [a ^ (q - 1) = 1]. *)
Lemma fermat a : 0 < a < q -> iter_mul mul a (Z.to_nat (q - 1)) = 1.
Proof.
  intros Ha.
  set (E := py_range 1 q).
  assert (HE : forall x, In x E <-> 0 < x < q)
    by (intros x; unfold E; rewrite In_py_range; lia).
  assert (HFE : Forall (fun x => 0 <= x < q) E)
    by (apply Forall_forall; intros x Hx; apply HE in Hx; lia).
  assert (HNE : Forall (fun x => 0 < x < q) E)
    by (apply Forall_forall; intros x Hx; apply HE in Hx; lia).
  assert (Hperm : Permutation (map (mul a) E) E).
  { apply Permutation_map_same_l.
    - apply Finite.Injective_map_NoDup_in; [|apply NoDup_py_range].
      intros x y Hx Hy. apply HE in Hx, Hy.
      apply mul_cancel_l; lia.
    - intros y Hy. apply in_map_iff in Hy. destruct Hy as [x [<- Hx]].
      apply HE in Hx. apply HE. apply mul_nonzero; assumption. }
  assert (HFm : Forall (fun x => 0 <= x < q) (map (mul a) E)).
  { apply Forall_forall. intros y Hy.
    apply (Permutation_in _ Hperm), HE in Hy. lia. }
  pose proof (prod_list_perm _ _ Hperm HFm) as Hprod.
  rewrite prod_list_map_mul in Hprod by (assumption || lia).
  unfold E in Hprod at 1. rewrite length_py_range in Hprod.
  pose proof (prod_list_nonzero E HNE) as HP.
  apply (mul_cancel_l (prod_list mul E)); try lia.
  - apply iter_mul_closed. lia.
  - rewrite mul_1_r, mul_comm by (lia || apply iter_mul_closed; lia).
    assumption.
Qed.

(** Exponents count modulo [q - 1]. *)
Lemma iter_mul_mod a e :
  0 < a < q ->
  iter_mul mul a e = iter_mul mul a (e mod Z.to_nat (q - 1)).
Proof.
  intros Ha.
  rewrite (Nat.div_mod_eq e (Z.to_nat (q - 1))) at 1.
  rewrite iter_mul_add, iter_mul_mul, fermat, iter_mul_one, mul_1_l
    by (lia || apply iter_mul_closed; lia).
  reflexivity.
Qed.

Lemma iter_mul_order a : 0 < a < q -> mul a (iter_mul mul a (Z.to_nat (q - 2))) = 1.
Proof.
  intros Ha. rewrite <- (fermat a Ha).
  replace (Z.to_nat (q - 1)) with (S (Z.to_nat (q - 2))) by lia.
  reflexivity.
Qed.

(** *** The square-and-multiply loop *)

Variable MULTIPLY : GF2m.multiply_kernel.
Variable RECIPROCAL : GF2m.reciprocal_kernel.
Variables C D P : Z.

Lemma square_multiply_while_fuel f1 : forall f2 s r e,
  (Z.to_nat e <= f1)%nat -> (Z.to_nat e <= f2)%nat ->
  GF2m.square_multiply_while MULTIPLY f1 C D P s r e =
  GF2m.square_multiply_while MULTIPLY f2 C D P s r e.
Proof.
  induction f1 as [|f1 IH]; intros f2 s r e H1 H2.
  - destruct f2; simpl; destruct (Z.gtb_spec e 1); try reflexivity; lia.
  - destruct f2; simpl; destruct (Z.gtb_spec e 1); try reflexivity; try lia.
    assert (Hhalf : 0 <= e / 2 < e)
      by (split; [apply Z.div_pos; lia|apply Z.div_lt_upper_bound; lia]).
    destruct (e mod 2 =? 0); apply IH; lia.
Qed.

(** The equation of the loop [while exponent > 1]. *)
Lemma square_multiply_while_eq s r e :
  GF2m.square_multiply_while MULTIPLY (Z.to_nat e) C D P s r e =
  if e >? 1 then
    if e mod 2 =? 0 then
      GF2m.square_multiply_while MULTIPLY (Z.to_nat (e / 2)) C D P
        (MULTIPLY s s C D P) r (e / 2)
    else
      GF2m.square_multiply_while MULTIPLY (Z.to_nat (e - 1)) C D P
        s (MULTIPLY r s C D P) (e - 1)
  else (s, r).
Proof.
  destruct (Z.to_nat e) as [|f] eqn:Hf.
  - simpl. destruct (Z.gtb_spec e 1); [lia|reflexivity].
  - simpl. destruct (Z.gtb_spec e 1); [|reflexivity].
    assert (Hhalf : 0 <= e / 2 < e)
      by (split; [apply Z.div_pos; lia|apply Z.div_lt_upper_bound; lia]).
    destruct (e mod 2 =? 0); apply square_multiply_while_fuel; lia.
Qed.

Hypothesis HM : forall a b, MULTIPLY a b C D P = mul a b.

(** The loop keeps [result_m * result_s ^ exponent]. *)
Lemma square_multiply_while_correct e :
  0 <= e -> 1 <= e -> forall s r, 0 <= s < q -> 0 <= r < q ->
  let '(s', r') :=
    GF2m.square_multiply_while MULTIPLY (Z.to_nat e) C D P s r e in
  mul r' s' = mul r (iter_mul mul s (Z.to_nat e)).
Proof.
  intros He. pattern e. apply Z_lt_induction; [clear e He|assumption].
  intros e IH He s r Hs Hr.
  rewrite square_multiply_while_eq.
  destruct (Z.gtb_spec e 1) as [Hgt|Hle].
  - destruct (Z.eqb_spec (e mod 2) 0) as [Heven|Hodd].
    + assert (Hk : e = 2 * (e / 2)) by (pose proof (Z.div_mod e 2); lia).
      rewrite HM.
      specialize (IH (e / 2) ltac:(lia) ltac:(lia) (mul s s) r
                    (mul_closed s s Hs Hs) Hr).
      destruct (GF2m.square_multiply_while MULTIPLY (Z.to_nat (e / 2)) C D P
                  (mul s s) r (e / 2)) as [s' r'].
      rewrite IH, iter_mul_square by assumption.
      do 2 f_equal. lia.
    + rewrite HM.
      specialize (IH (e - 1) ltac:(lia) ltac:(lia) s (mul r s) Hs
                    (mul_closed r s Hr Hs)).
      destruct (GF2m.square_multiply_while MULTIPLY (Z.to_nat (e - 1)) C D P
                  s (mul r s) (e - 1)) as [s' r'].
      rewrite IH, mul_assoc by (assumption || apply iter_mul_closed; assumption).
      replace (Z.to_nat e) with (S (Z.to_nat (e - 1))) by lia.
      reflexivity.
  - replace e with 1 by lia. simpl. rewrite mul_1_r by assumption. reflexivity.
Qed.

(** [_power_calculate] with a non-negative exponent is the repeated product. *)
Lemma power_calculate_nonneg a e :
  0 <= a < q -> 0 <= e ->
  GF2m._power_calculate MULTIPLY RECIPROCAL a e C D P
  = Ok (iter_mul mul a (Z.to_nat e)).
Proof.
  intros Ha He. unfold GF2m._power_calculate.
  destruct (Z.ltb_spec e 0) as [|_]; [lia|]. rewrite andb_false_r.
  destruct (Z.eqb_spec e 0) as [->|Hne]; [reflexivity|].
  cbn [bind].
  pose proof (square_multiply_while_correct e He ltac:(lia) a 1 Ha ltac:(lia))
    as Hloop.
  destruct (GF2m.square_multiply_while MULTIPLY (Z.to_nat e) C D P a 1 e)
    as [s' r'].
  rewrite HM, Hloop, mul_1_l by (apply iter_mul_closed; assumption).
  reflexivity.
Qed.

Hypothesis Hord : C ^ D = q.

(** [_reciprocal_calculate] is the power [order - 2]. *)
Lemma reciprocal_calculate_iter a :
  0 < a < q ->
  GF2m._reciprocal_calculate MULTIPLY a C D P
  = Ok (iter_mul mul a (Z.to_nat (q - 2))).
Proof.
  intros Ha. unfold GF2m._reciprocal_calculate.
  destruct (Z.eqb_spec a 0) as [|_]; [lia|]. rewrite Hord.
  destruct (Z.eq_dec q 2) as [Hq2|Hq2].
  - replace a with 1 by lia. rewrite Hq2. simpl. rewrite HM, mul_1_l by lia.
    reflexivity.
  - pose proof (square_multiply_while_correct (q - 2) ltac:(lia) ltac:(lia)
                  a 1 ltac:(lia) ltac:(lia)) as Hloop.
    destruct (GF2m.square_multiply_while MULTIPLY (Z.to_nat (q - 2)) C D P
                a 1 (q - 2)) as [s' r'].
    rewrite HM, Hloop, mul_1_l by (apply iter_mul_closed; lia).
    reflexivity.
Qed.

(** *** The linear search of the logarithm *)

(** The loop over [i0, i0 + k) that starts with [result = b ^ i0] stops at the
    first [i] with [b ^ i = a]; without one it ends with the last value of
    the range. *)
Lemma log_for_spec a b k : forall i0 prev,
  0 <= b < q ->
  let r := GF2m.log_for MULTIPLY (map (fun j => 0 + Z.of_nat j) (seq i0 k))
             C D P a b (iter_mul mul b i0) prev in
  (exists i, (i0 <= i < i0 + k)%nat /\ r = Some (Z.of_nat i) /\
             iter_mul mul b i = a /\
             forall j, (i0 <= j < i)%nat -> iter_mul mul b j <> a)
  \/ ((forall j, (i0 <= j < i0 + k)%nat -> iter_mul mul b j <> a) /\
      r = match k with
          | O => prev
          | S k' => Some (Z.of_nat (i0 + k'))
          end).
Proof.
  induction k as [|k IH]; intros i0 prev Hb; cbv zeta.
  - right. split; [intros; lia|reflexivity].
  - cbn [seq map GF2m.log_for].
    destruct (Z.eqb_spec (iter_mul mul b i0) a) as [Heq|Hne].
    + left. exists i0. repeat split; [lia|lia|assumption|intros; lia].
    + rewrite HM, <- iter_mul_S_r by assumption.
      destruct (IH (S i0) (Some (0 + Z.of_nat i0)) Hb)
        as [[i [Hi [Hr [Hpow Hmin]]]]|[Hnone Hr]].
      * left. exists i. repeat split; [lia|lia|assumption|assumption|].
        intros j Hj. destruct (Nat.eq_dec j i0) as [->|]; [assumption|].
        apply Hmin. lia.
      * right. split.
        -- intros j Hj. destruct (Nat.eq_dec j i0) as [->|]; [assumption|].
           apply Hnone. lia.
        -- rewrite Hr. destruct k; f_equal; lia.
Qed.

(** [_log_calculate] of a nonzero element: the least exponent in
    [0 .. order - 2] if there is one, and [order - 2] otherwise. *)
Lemma log_calculate_spec a b :
  0 < a < q -> 0 <= b < q ->
  exists i : nat,
    GF2m._log_calculate MULTIPLY a b C D P = Ok (Z.of_nat i) /\
    (i <= Z.to_nat (q - 2))%nat /\
    ((iter_mul mul b i = a /\ forall j, (j < i)%nat -> iter_mul mul b j <> a)
     \/ (i = Z.to_nat (q - 2) /\
         forall j, (j <= Z.to_nat (q - 2))%nat -> iter_mul mul b j <> a)).
Proof.
  intros Ha Hb. unfold GF2m._log_calculate, py_range.
  destruct (Z.eqb_spec a 0) as [|_]; [lia|]. rewrite Hord.
  replace (Z.to_nat (q - 1 - 0)) with (S (Z.to_nat (q - 2))) by lia.
  pose proof (log_for_spec a b (S (Z.to_nat (q - 2))) 0%nat None Hb) as Hloop.
  cbv zeta in Hloop. cbn [iter_mul] in Hloop.
  destruct Hloop as [[i [Hi [Hr [Hpow Hmin]]]]|[Hnone Hr]]; rewrite Hr.
  - exists i. split; [reflexivity|]. split; [lia|].
    left. split; [assumption|]. intros j Hj. apply Hmin. lia.
  - exists (Z.to_nat (q - 2)). split; [reflexivity|]. split; [lia|].
    right. split; [reflexivity|]. intros j Hj. apply Hnone. lia.
Qed.

(** *** Reciprocal, quotient and square root in a field *)

Lemma reciprocal_calculate_inverse a :
  0 < a < q ->
  exists r, GF2m._reciprocal_calculate MULTIPLY a C D P = Ok r /\
            0 < r < q /\ mul a r = 1.
Proof.
  intros Ha. exists (iter_mul mul a (Z.to_nat (q - 2))).
  split; [apply reciprocal_calculate_iter; assumption|].
  split; [apply iter_mul_nonzero; assumption|].
  apply iter_mul_order; assumption.
Qed.

Hypothesis HR :
  forall a, RECIPROCAL a C D P = GF2m._reciprocal_calculate MULTIPLY a C D P.

Lemma divide_calculate_spec a b :
  0 <= a < q -> 0 < b < q ->
  exists c r,
    GF2m._divide_calculate MULTIPLY RECIPROCAL a b C D P = Ok c /\
    RECIPROCAL b C D P = Ok r /\
    0 <= c < q /\ mul c b = a /\
    (a = 0 -> c = 0) /\ (a <> 0 -> c = mul a r).
Proof.
  intros Ha Hb.
  destruct (reciprocal_calculate_inverse b Hb) as [r [Hr [Hrq Hinv]]].
  unfold GF2m._divide_calculate. rewrite HR, Hr.
  destruct (Z.eqb_spec b 0) as [|_]; [lia|].
  destruct (Z.eqb_spec a 0) as [->|Hne].
  - exists 0, r. repeat split; try lia.
    apply mul_0_l. lia.
  - cbn [bind]. rewrite HM. exists (mul a r), r.
    split; [reflexivity|]. split; [reflexivity|].
    split; [apply mul_closed; lia|].
    split; [|split; [contradiction|reflexivity]].
    rewrite mul_assoc, (mul_comm r b), Hinv by lia.
    apply mul_1_r. assumption.
Qed.

(** The Frobenius map has order dividing [q]: [a ^ q = a]. *)
Lemma iter_mul_q a : 0 <= a < q -> iter_mul mul a (Z.to_nat q) = a.
Proof.
  intros Ha. replace (Z.to_nat q) with (S (Z.to_nat (q - 1))) by lia.
  cbn [iter_mul].
  destruct (Z.eq_dec a 0) as [->|Hne].
  - apply mul_0_l. apply iter_mul_closed. lia.
  - rewrite fermat by lia. apply mul_1_r. assumption.
Qed.

(** A negative exponent is the power of the reciprocal. *)
Lemma power_calculate_neg a e :
  0 < a < q -> e < 0 ->
  GF2m._power_calculate MULTIPLY RECIPROCAL a e C D P
  = Ok (iter_mul mul (iter_mul mul a (Z.to_nat (q - 2))) (Z.to_nat (- e))).
Proof.
  intros Ha He. unfold GF2m._power_calculate.
  destruct (Z.eqb_spec a 0) as [|_]; [lia|]. cbn [andb].
  destruct (Z.eqb_spec e 0) as [|_]; [lia|].
  destruct (Z.ltb_spec e 0) as [_|]; [|lia].
  rewrite HR, reciprocal_calculate_iter by assumption. cbn [bind].
  replace (Z.abs e) with (- e) by lia.
  set (r := iter_mul mul a (Z.to_nat (q - 2))).
  assert (Hr : 0 <= r < q) by (apply iter_mul_closed; lia).
  pose proof (square_multiply_while_correct (- e) ltac:(lia) ltac:(lia)
                r 1 Hr ltac:(lia)) as Hloop.
  destruct (GF2m.square_multiply_while MULTIPLY (Z.to_nat (- e)) C D P r 1 (- e))
    as [s' r'].
  rewrite HM, Hloop, mul_1_l by (apply iter_mul_closed; assumption).
  reflexivity.
Qed.

(** *** Generators *)

Section Generator.

Variable b : Z.
Hypothesis Hb : 0 < b < q.
Hypothesis Hgen : forall a, 0 < a < q -> exists e : nat, iter_mul mul b e = a.

(** Every nonzero element is a power with exponent below [q - 1]. *)
Lemma generator_small a :
  0 < a < q ->
  exists e : nat, (e <= Z.to_nat (q - 2))%nat /\ iter_mul mul b e = a.
Proof.
  intros Ha. destruct (Hgen a Ha) as [e He].
  exists (e mod Z.to_nat (q - 1))%nat. split.
  - pose proof (Nat.mod_upper_bound e (Z.to_nat (q - 1))). lia.
  - rewrite <- iter_mul_mod; assumption.
Qed.

(** The [q - 1] first powers are pairwise different. *)
Lemma generator_injective i j :
  (i <= Z.to_nat (q - 2))%nat -> (j <= Z.to_nat (q - 2))%nat ->
  iter_mul mul b i = iter_mul mul b j -> i = j.
Proof.
  set (n := Z.to_nat (q - 1)).
  set (L := map (iter_mul mul b) (seq 0 n)).
  assert (Hlen : length L = n)
    by (unfold L; rewrite length_map, length_seq; reflexivity).
  assert (HND : NoDup L).
  { apply (NoDup_incl_NoDup (NoDup_py_range 1 q)).
    - rewrite Hlen, length_py_range. unfold n. lia.
    - intros a Ha. apply In_py_range in Ha.
      destruct (generator_small a ltac:(lia)) as [e [He Hpow]].
      apply in_map_iff. exists e. split; [assumption|].
      apply in_seq. unfold n. lia. }
  assert (Hnth : forall k, (k < n)%nat ->
                 nth k L (iter_mul mul b 0) = iter_mul mul b k).
  { intros k Hk. unfold L. rewrite map_nth, seq_nth by assumption.
    reflexivity. }
  intros Hi Hj Heq.
  apply (proj1 (NoDup_nth L (iter_mul mul b 0)) HND);
    rewrite ?Hlen, ?Hnth; unfold n; lia.
Qed.

(** The logarithm of a nonzero element is its least exponent. *)
Lemma log_calculate_least a :
  0 < a < q ->
  exists i : nat,
    GF2m._log_calculate MULTIPLY a b C D P = Ok (Z.of_nat i) /\
    (i <= Z.to_nat (q - 2))%nat /\
    iter_mul mul b i = a /\
    forall j, (j < i)%nat -> iter_mul mul b j <> a.
Proof.
  intros Ha.
  destruct (log_calculate_spec a b Ha ltac:(lia))
    as [i [Hlog [Hi [[Hpow Hmin]|[_ Hnone]]]]].
  - exists i. auto.
  - destruct (generator_small a Ha) as [e [He Hpow]].
    exfalso. apply (Hnone e He Hpow).
Qed.

(** Logarithm after exponentiation. *)
Lemma log_calculate_iter e :
  (e <= Z.to_nat (q - 2))%nat ->
  GF2m._log_calculate MULTIPLY (iter_mul mul b e) b C D P = Ok (Z.of_nat e).
Proof.
  intros He.
  destruct (log_calculate_least (iter_mul mul b e)
              (iter_mul_nonzero b e Hb))
    as [i [Hlog [Hi [Hpow _]]]].
  rewrite Hlog. do 2 f_equal.
  apply generator_injective; assumption.
Qed.

End Generator.

End Monoid.

(** ** Irreducible polynomials *)

(** Bezout's identity in GF(2)[x], by Euclid's algorithm: some common
    divisor [g] of [a] and [b] is a combination of them. *)
Lemma bezout b :
  0 <= b -> forall a, 0 <= a ->
  exists u v g s t,
    (0 <= u /\ 0 <= v /\ 0 <= g /\ 0 <= s /\ 0 <= t) /\
    g = Z.lxor (clmul u a) (clmul v b) /\
    a = clmul s g /\ b = clmul t g.
Proof.
  intros Hb. generalize Hb. pattern b.
  apply Z_lt_induction; [clear b Hb|assumption].
  intros b IH Hb a Ha.
  destruct (Z_lt_le_dec 0 b) as [Hpos|Hle].
  - destruct (pmod_spec a b Hpos Ha) as [Hr [k [Hk Hdiv]]].
    set (r := pmod a b) in *.
    pose proof (log2_bounds b Hpos) as Hbb.
    destruct (IH r ltac:(lia) ltac:(lia) b ltac:(lia))
      as [u [v [g [s [t [[Hu [Hv [Hg [Hs Ht]]]] [Hcomb [Hdb Hdr]]]]]]]].
    exists v, (Z.lxor u (clmul v k)), g, (Z.lxor (clmul k s) t), s.
    split; [auto 10 with gf2|]. split; [|split].
    + rewrite Hcomb, Hdiv.
      rewrite clmul_lxor_r, clmul_lxor_l by auto with gf2.
      rewrite (clmul_assoc v k b) by auto with gf2. xor_ac.
    + rewrite clmul_lxor_l, clmul_assoc, <- Hdb, <- Hdr by auto with gf2.
      assumption.
    + assumption.
  - assert (b = 0) as -> by lia.
    exists 1, 0, a, 1, 0.
    split; [lia|]. rewrite !clmul_1_l, !clmul_0_l by assumption.
    repeat split. xor_ac.
Qed.

(** Modulo an irreducible polynomial every nonzero polynomial of smaller
    degree has an inverse. *)
Lemma irreducible_inverse m p a :
  1 <= m -> 2 ^ m <= p < 2 ^ (m + 1) -> irreducible p -> 0 < a < 2 ^ m ->
  exists b, 0 <= b < 2 ^ m /\ pmod (clmul a b) p = 1.
Proof.
  intros Hm Hp [_ Hirr] Ha.
  assert (Hpow : 0 < 2 ^ m) by (apply Z.pow_pos_nonneg; lia).
  assert (Hlog : Z.log2 p = m) by (apply log2_of_bounds; lia).
  destruct (bezout p ltac:(lia) a ltac:(lia))
    as [u [v [g [s [t [[Hu [Hv [Hg [Hs Ht]]]] [Hcomb [Hda Hdp]]]]]]]].
  assert (Hg1 : g = 1).
  { destruct (Hirr t g Ht Hg (eq_sym Hdp)) as [Ht1|]; [exfalso|assumption].
    subst t. rewrite clmul_1_l in Hdp by assumption. rewrite <- Hdp in Hda.
    destruct (Z.eq_dec s 0) as [->|Hs0].
    - rewrite clmul_0_l in Hda. lia.
    - pose proof (clmul_ge s p ltac:(lia) ltac:(lia)) as Hge.
      rewrite Hlog, <- Hda in Hge. lia. }
  rewrite Hg1 in Hcomb.
  exists (pmod u p). split; [apply pmod_range; lia|].
  rewrite (clmul_comm a) by (try apply pmod_nn; lia).
  rewrite pmod_clmul_l by lia.
  apply (pmod_unique p v); try lia.
  - rewrite Hlog. split; [lia|]. apply Z.pow_gt_1; lia.
  - replace (clmul u a)
      with (Z.lxor (Z.lxor (clmul u a) (clmul v p)) (clmul v p)) by xor_ac.
    rewrite <- Hcomb. apply Z.lxor_comm.
Qed.

(** Trial division is sound. *)
Lemma irreducibleb_sound p : irreducibleb p = true -> irreducible p.
Proof.
  unfold irreducibleb. intros H. apply andb_prop in H. destruct H as [H2 Hall].
  apply Z.leb_le in H2. rewrite forallb_forall in Hall.
  split; [assumption|]. intros a b Ha Hb Hab.
  destruct (Z.eq_dec a 0) as [->|Ha0]; [rewrite clmul_0_l in Hab; lia|].
  destruct (Z.eq_dec b 0) as [->|Hb0]; [rewrite clmul_0_r in Hab; lia|].
  destruct (Z.eq_dec a 1) as [|Ha1]; [left; assumption|].
  destruct (Z.eq_dec b 1) as [|Hb1]; [right; assumption|exfalso].
  destruct (clmul_degree a b ltac:(lia) ltac:(lia)) as [_ Hdeg].
  rewrite Hab in Hdeg.
  assert (1 <= Z.log2 b)
    by (apply Z.log2_le_pow2; [lia|change (2 ^ 1) with 2; lia]).
  assert (Hlt : a < 2 ^ Z.log2 p) by (apply Z.log2_lt_pow2; lia).
  specialize (Hall a ltac:(apply In_py_range; lia)).
  rewrite <- Hab, (clmul_comm a b), pmod_multiple in Hall by lia.
  discriminate.
Qed.

(** ** The field GF(2^m) *)

Section Field.

Variables m p : Z.
Hypothesis Hm : 1 <= m.
Hypothesis Hp : 2 ^ m <= p < 2 ^ (m + 1).

Lemma order_ge_2 : 2 <= 2 ^ m.
Proof. change 2 with (2 ^ 1) at 1. apply Z.pow_le_mono_r; lia. Qed.

Lemma fmul_closed a b :
  0 <= a < 2 ^ m -> 0 <= b < 2 ^ m -> 0 <= fmul m p a b < 2 ^ m.
Proof. apply fmul_range; (lia || assumption). Qed.

Lemma fmul_comm a b :
  0 <= a < 2 ^ m -> 0 <= b < 2 ^ m -> fmul m p a b = fmul m p b a.
Proof.
  intros Ha Hb. rewrite !fmul_pmod by (lia || assumption).
  rewrite clmul_comm by lia. reflexivity.
Qed.

Lemma fmul_assoc a b c :
  0 <= a < 2 ^ m -> 0 <= b < 2 ^ m -> 0 <= c < 2 ^ m ->
  fmul m p (fmul m p a b) c = fmul m p a (fmul m p b c).
Proof.
  intros Ha Hb Hc.
  pose proof (fmul_closed a b Ha Hb). pose proof (fmul_closed b c Hb Hc).
  rewrite (fmul_pmod m p ltac:(lia) Hp (fmul m p a b) c) by assumption.
  rewrite (fmul_pmod m p ltac:(lia) Hp a (fmul m p b c)) by assumption.
  rewrite (fmul_pmod m p ltac:(lia) Hp a b), (fmul_pmod m p ltac:(lia) Hp b c)
    by assumption.
  rewrite (clmul_comm a (pmod _ _)) by (try apply pmod_nn; lia).
  rewrite !pmod_clmul_l by (auto with gf2; lia).
  rewrite clmul_assoc, (clmul_comm (clmul b c) a) by auto with gf2.
  reflexivity.
Qed.

Lemma fmul_1_l a : 0 <= a < 2 ^ m -> fmul m p 1 a = a.
Proof.
  intros Ha. pose proof order_ge_2.
  rewrite fmul_pmod by (lia || assumption).
  rewrite clmul_1_l by lia. apply pmod_small; [lia|].
  rewrite (log2_of_bounds m p) by (lia || assumption). assumption.
Qed.

Lemma fmul_0_l a : 0 <= a < 2 ^ m -> fmul m p 0 a = 0.
Proof.
  intros Ha. rewrite fmul_pmod by (lia || assumption).
  rewrite clmul_0_l. reflexivity.
Qed.

(** *** The kernels bound to the direct multiplication *)

Lemma power_nonneg a e :
  0 <= a < 2 ^ m -> 0 <= e ->
  GF2m.power a e 2 m p = Ok (repeated_multiply m p a (Z.to_nat e)).
Proof.
  apply (power_calculate_nonneg (2 ^ m) (fmul m p) order_ge_2
           fmul_closed fmul_comm fmul_assoc fmul_1_l
           GF2m.multiply GF2m.reciprocal 2 m p (fun _ _ => eq_refl)).
Qed.

Lemma reciprocal_power a :
  0 < a < 2 ^ m ->
  GF2m.reciprocal a 2 m p
  = Ok (repeated_multiply m p a (Z.to_nat (2 ^ m - 2))).
Proof.
  apply (reciprocal_calculate_iter (2 ^ m) (fmul m p) order_ge_2
           fmul_closed fmul_comm fmul_assoc fmul_1_l
           GF2m.multiply 2 m p (fun _ _ => eq_refl) eq_refl).
Qed.

Lemma power_neg a e :
  0 < a < 2 ^ m -> e < 0 ->
  GF2m.power a e 2 m p
  = Ok (repeated_multiply m p
          (repeated_multiply m p a (Z.to_nat (2 ^ m - 2))) (Z.to_nat (- e))).
Proof.
  apply (power_calculate_neg (2 ^ m) (fmul m p) order_ge_2
           fmul_closed fmul_comm fmul_assoc fmul_1_l
           GF2m.multiply GF2m.reciprocal 2 m p (fun _ _ => eq_refl) eq_refl
           (fun _ => eq_refl)).
Qed.

Lemma log_spec a b :
  0 < a < 2 ^ m -> 0 <= b < 2 ^ m ->
  exists i : nat,
    GF2m.log a b 2 m p = Ok (Z.of_nat i) /\
    (i <= Z.to_nat (2 ^ m - 2))%nat /\
    ((repeated_multiply m p b i = a /\
      forall j, (j < i)%nat -> repeated_multiply m p b j <> a)
     \/ (i = Z.to_nat (2 ^ m - 2) /\
         forall j, (j <= Z.to_nat (2 ^ m - 2))%nat ->
                   repeated_multiply m p b j <> a)).
Proof.
  apply (log_calculate_spec (2 ^ m) (fmul m p) order_ge_2
           fmul_closed fmul_comm GF2m.multiply 2 m p (fun _ _ => eq_refl)
           eq_refl).
Qed.

Hypothesis Hirr : irreducible p.

Lemma fmul_inv a :
  0 < a < 2 ^ m -> exists b, 0 <= b < 2 ^ m /\ fmul m p a b = 1.
Proof.
  intros Ha.
  destruct (irreducible_inverse m p a Hm Hp Hirr Ha) as [b [Hb Hinv]].
  exists b. split; [assumption|].
  rewrite fmul_pmod by (lia || assumption). assumption.
Qed.

Lemma reciprocal_inverse a :
  0 < a < 2 ^ m ->
  exists r, GF2m.reciprocal a 2 m p = Ok r /\ 0 < r < 2 ^ m /\ fmul m p a r = 1.
Proof.
  apply (reciprocal_calculate_inverse (2 ^ m) (fmul m p) order_ge_2
           fmul_closed fmul_comm fmul_assoc fmul_1_l fmul_0_l fmul_inv
           GF2m.multiply 2 m p (fun _ _ => eq_refl) eq_refl).
Qed.

Lemma divide_spec a b :
  0 <= a < 2 ^ m -> 0 < b < 2 ^ m ->
  exists c r,
    GF2m.divide a b 2 m p = Ok c /\
    GF2m.reciprocal b 2 m p = Ok r /\
    0 <= c < 2 ^ m /\ fmul m p c b = a /\
    (a = 0 -> c = 0) /\ (a <> 0 -> c = fmul m p a r).
Proof.
  apply (divide_calculate_spec (2 ^ m) (fmul m p) order_ge_2
           fmul_closed fmul_comm fmul_assoc fmul_1_l fmul_0_l fmul_inv
           GF2m.multiply GF2m.reciprocal 2 m p (fun _ _ => eq_refl) eq_refl
           (fun _ => eq_refl)).
Qed.

Lemma repeated_multiply_order a :
  0 <= a < 2 ^ m -> repeated_multiply m p a (Z.to_nat (2 ^ m)) = a.
Proof.
  intros Ha.
  apply (iter_mul_q (2 ^ m) (fmul m p));
    auto using order_ge_2, fmul_closed, fmul_comm, fmul_assoc, fmul_1_l,
      fmul_0_l, fmul_inv.
Qed.

Lemma repeated_multiply_add a e1 e2 :
  0 <= a < 2 ^ m ->
  repeated_multiply m p a (e1 + e2)
  = fmul m p (repeated_multiply m p a e1) (repeated_multiply m p a e2).
Proof.
  apply (iter_mul_add (2 ^ m) (fmul m p) order_ge_2
           fmul_closed fmul_assoc fmul_1_l).
Qed.

Section Primitive.

Variable b : Z.
Hypothesis Hprim : primitive_element m p b.

Lemma log_least a :
  0 < a < 2 ^ m ->
  exists i : nat,
    GF2m.log a b 2 m p = Ok (Z.of_nat i) /\
    (i <= Z.to_nat (2 ^ m - 2))%nat /\
    repeated_multiply m p b i = a /\
    forall j, (j < i)%nat -> repeated_multiply m p b j <> a.
Proof.
  destruct Hprim as [Hb Hgen].
  apply (log_calculate_least (2 ^ m) (fmul m p) order_ge_2
           fmul_closed fmul_comm fmul_assoc fmul_1_l fmul_0_l fmul_inv
           GF2m.multiply 2 m p (fun _ _ => eq_refl) eq_refl b Hb Hgen).
Qed.

Lemma log_repeated_multiply e :
  (e <= Z.to_nat (2 ^ m - 2))%nat ->
  GF2m.log (repeated_multiply m p b e) b 2 m p = Ok (Z.of_nat e).
Proof.
  destruct Hprim as [Hb Hgen].
  apply (log_calculate_iter (2 ^ m) (fmul m p) order_ge_2
           fmul_closed fmul_comm fmul_assoc fmul_1_l fmul_0_l fmul_inv
           GF2m.multiply 2 m p (fun _ _ => eq_refl) eq_refl b Hb Hgen).
Qed.

End Primitive.

(** The search stops at the first match, whatever the base is: when the
    element is a power of the base at all, the logarithm is the least
    exponent, and that exponent is below [order - 1]. *)
Lemma log_first_match a b k :
  0 < a < 2 ^ m -> 0 <= b < 2 ^ m ->
  repeated_multiply m p b k = a ->
  exists i : nat,
    GF2m.log a b 2 m p = Ok (Z.of_nat i) /\
    (i <= Z.to_nat (2 ^ m - 2))%nat /\ (i <= k)%nat /\
    repeated_multiply m p b i = a /\
    forall j, (j < i)%nat -> repeated_multiply m p b j <> a.
Proof.
  intros Ha Hb Hk.
  pose proof order_ge_2 as Hq.
  assert (Hin : exists k', (k' <= Z.to_nat (2 ^ m - 2))%nat /\
                           repeated_multiply m p b k' = a).
  { destruct (Z.eq_dec b 0) as [Hb0 | Hb0].
    - destruct k as [|k]; [exists 0%nat; split; [lia|assumption]|].
      exfalso. rewrite Hb0 in Hk. cbn [repeated_multiply iter_mul] in Hk.
      rewrite fmul_0_l in Hk; [lia|].
      apply (iter_mul_closed (2 ^ m) (fmul m p));
        auto using fmul_closed, fmul_1_l; lia.
    - exists (k mod Z.to_nat (2 ^ m - 1))%nat. split.
      + pose proof (Nat.mod_upper_bound k (Z.to_nat (2 ^ m - 1))
                      ltac:(lia)). lia.
      + rewrite <- Hk. symmetry.
        apply (iter_mul_mod (2 ^ m) (fmul m p));
          auto using fmul_closed, fmul_comm, fmul_assoc, fmul_1_l,
            fmul_0_l, fmul_inv; lia. }
  destruct Hin as [k' [Hk' Hpow]].
  destruct (log_spec a b Ha Hb) as [i [Hlog [Hi [[Hfound Hmin] | [_ Hnone]]]]].
  - exists i. split; [assumption|]. split; [assumption|].
    split; [|split; assumption].
    destruct (Nat.le_gt_cases i k) as [|Hlt]; [assumption|].
    exfalso. apply (Hmin k Hlt). assumption.
  - exfalso. apply (Hnone k' Hk'). assumption.
Qed.

End Field.

(** ** Checked instances *)

Lemma primitive_elementb_sound m p b :
  primitive_elementb m p b = true -> primitive_element m p b.
Proof.
  unfold primitive_elementb. intros H.
  apply andb_prop in H. destruct H as [H Hall].
  apply andb_prop in H. destruct H as [H0 H1].
  apply Z.ltb_lt in H0, H1. rewrite forallb_forall in Hall.
  split; [lia|]. intros a Ha.
  specialize (Hall a ltac:(apply In_py_range; lia)).
  apply existsb_exists in Hall. destruct Hall as [e [_ He]].
  exists e. apply Z.eqb_eq. assumption.
Qed.

(** GF(2^3) with the polynomial x^3 + x + 1. *)
Lemma gf8_descriptor : descriptor 3 11.
Proof.
  split; [lia|]. split; [lia|].
  apply irreducibleb_sound. vm_compute. reflexivity.
Qed.

Lemma gf8_primitive : primitive_element 3 11 2.
Proof. apply primitive_elementb_sound. vm_compute. reflexivity. Qed.

(** GF(2^4) with the polynomial x^4 + x + 1. *)
Lemma gf16_descriptor : descriptor 4 19.
Proof.
  split; [lia|]. split; [lia|].
  apply irreducibleb_sound. vm_compute. reflexivity.
Qed.

Lemma gf16_primitive : primitive_element 4 19 2.
Proof. apply primitive_elementb_sound. vm_compute. reflexivity. Qed.

(** GF(2): both polynomials of degree 1 are irreducible. *)
Lemma gf2_descriptor p : 2 ^ 1 <= p < 2 ^ (1 + 1) -> descriptor 1 p.
Proof.
  intros Hp. split; [lia|]. split; [assumption|].
  assert (Hcases : p = 2 \/ p = 3) by lia.
  destruct Hcases as [-> | ->]; apply irreducibleb_sound; vm_compute;
    reflexivity.
Qed.

(** ** The properties of the specification *)

(** C1: for every degree [m >= 1], every polynomial [p] with
    [2^m <= p < 2^(m+1)] and all elements [a], [b] of [[0, 2^m)],
    [_multiply_calculate a b 2 m p] is the carry-less product of [a] and [b]
    reduced modulo [p] (it differs from the product by a multiple of [p]) and
    lies in [[0, 2^m)].  The kernel is a total function: no error is raised. *)
Theorem multiply_calculate_correct m p a b :
  1 <= m -> 2 ^ m <= p < 2 ^ (m + 1) ->
  0 <= a < 2 ^ m -> 0 <= b < 2 ^ m ->
  GF2m._multiply_calculate a b 2 m p = pmod (clmul a b) p /\
  0 <= GF2m._multiply_calculate a b 2 m p < 2 ^ m /\
  exists k, 0 <= k /\
    clmul a b = Z.lxor (clmul k p) (GF2m._multiply_calculate a b 2 m p).
Proof.
  intros Hm Hp Ha Hb.
  rewrite multiply_pmod by (lia || assumption).
  assert (Hnn : 0 <= clmul a b) by auto with gf2.
  split; [reflexivity|]. split; [apply pmod_range; (lia || assumption)|].
  apply pmod_spec; [|assumption].
  pose proof (Z.pow_pos_nonneg 2 m). lia.
Qed.

Lemma multiply_calculate_correct_witness :
  GF2m._multiply_calculate 3 6 2 3 11 = pmod (clmul 3 6) 11 /\
  0 <= GF2m._multiply_calculate 3 6 2 3 11 < 2 ^ 3 /\
  exists k, 0 <= k /\
    clmul 3 6 = Z.lxor (clmul k 11) (GF2m._multiply_calculate 3 6 2 3 11).
Proof. apply (multiply_calculate_correct 3 11 3 6); lia. Defined.

(** C2: in every field GF(2^m) and for every nonzero element [a], the
    reciprocal kernel returns [a^(order-2)], and its product with [a]
    is 1. *)
Theorem reciprocal_is_inverse m p a :
  descriptor m p -> 0 < a < 2 ^ m ->
  exists r,
    GF2m.reciprocal a 2 m p = Ok r /\
    r = repeated_multiply m p a (Z.to_nat (2 ^ m - 2)) /\
    GF2m.multiply a r 2 m p = 1.
Proof.
  intros [Hm [Hp Hirr]] Ha.
  destruct (reciprocal_inverse m p Hm Hp Hirr a Ha) as [r [Hr [_ Hinv]]].
  exists r. split; [assumption|]. split; [|assumption].
  rewrite reciprocal_power in Hr by assumption. congruence.
Qed.

Lemma reciprocal_is_inverse_witness :
  exists r,
    GF2m.reciprocal 2 2 3 11 = Ok r /\
    r = repeated_multiply 3 11 2 (Z.to_nat (2 ^ 3 - 2)) /\
    GF2m.multiply 2 r 2 3 11 = 1.
Proof. apply (reciprocal_is_inverse 3 11 2 gf8_descriptor). lia. Defined.

(** C3, as the code computes it: in GF(2^3) with the polynomial [0b1011],
    [multiply 0b011 0b110] is [0b001], [reciprocal 0b010], [divide 0b001 0b010]
    and [power 0b010 (-1)] are [0b101], and [log 0b100 0b010] is 2, the
    least exponent [e] with [0b010^e = 0b100]. *)
Theorem gf8_scenario :
  GF2m.multiply 3 6 2 3 11 = 1 /\
  GF2m.reciprocal 2 2 3 11 = Ok 5 /\
  GF2m.divide 1 2 2 3 11 = Ok 5 /\
  GF2m.power 2 (-1) 2 3 11 = Ok 5 /\
  GF2m.log 4 2 2 3 11 = Ok 2 /\
  GF2m.power 2 2 2 3 11 = Ok 4 /\
  GF2m.power 2 0 2 3 11 <> Ok 4 /\
  GF2m.power 2 1 2 3 11 <> Ok 4.
Proof. vm_compute. repeat split; discriminate. Qed.

(** C3 as stated fails: the product [0b011 * 0b110] is not [0b101]. *)
Lemma gf8_scenario_counterexample :
  ~ (GF2m.multiply 3 6 2 3 11 = 5 /\
     GF2m.reciprocal 2 2 3 11 = Ok 5 /\
     GF2m.divide 1 2 2 3 11 = Ok 5 /\
     GF2m.power 2 (-1) 2 3 11 = Ok 5 /\
     GF2m.log 4 2 2 3 11 = Ok 2).
Proof. vm_compute. intros [H _]. discriminate H. Qed.

(** C4: whatever kernels the globals are bound to, the reciprocal of 0 and
    the division of any [x] by 0 raise [ZeroDivisionError] (DivisionByZero), 0
    to a negative exponent raises [ZeroDivisionError], and the logarithm of 0
    raises [ArithmeticError] (DomainError), for every base [b]. *)
Theorem zero_raises MULTIPLY RECIPROCAL C D P x b e :
  e < 0 ->
  GF2m._reciprocal_calculate MULTIPLY 0 C D P = Raise ZeroDivisionError /\
  GF2m._divide_calculate MULTIPLY RECIPROCAL x 0 C D P = Raise ZeroDivisionError /\
  GF2m._power_calculate MULTIPLY RECIPROCAL 0 e C D P = Raise ZeroDivisionError /\
  GF2m._log_calculate MULTIPLY 0 b C D P = Raise ArithmeticError.
Proof.
  intros He. repeat split; try reflexivity.
  unfold GF2m._power_calculate.
  destruct (Z.ltb_spec e 0); [reflexivity|lia].
Qed.

Lemma zero_raises_witness :
  GF2m.reciprocal 0 2 3 11 = Raise ZeroDivisionError /\
  GF2m.divide 5 0 2 3 11 = Raise ZeroDivisionError /\
  GF2m.power 0 (-1) 2 3 11 = Raise ZeroDivisionError /\
  GF2m.log 0 2 2 3 11 = Raise ArithmeticError.
Proof.
  apply (zero_raises GF2m.multiply GF2m.reciprocal 2 3 11 5 2 (-1)). lia.
Defined.

(** C5: for every element [a] and every exponent [e >= 0], [power a e] is
    the [e]-fold product of [a] with itself under [multiply], the empty
    product being 1; [power a 0] is 1, also for [a = 0]. *)
Theorem power_repeated_multiply m p a e :
  1 <= m -> 2 ^ m <= p < 2 ^ (m + 1) -> 0 <= a < 2 ^ m -> 0 <= e ->
  GF2m.power a e 2 m p = Ok (repeated_multiply m p a (Z.to_nat e)) /\
  GF2m.power a 0 2 m p = Ok 1 /\
  GF2m.power 0 0 2 m p = Ok 1.
Proof.
  intros Hm Hp Ha He.
  split; [apply power_nonneg; assumption|].
  split; [|reflexivity].
  unfold GF2m.power, GF2m._power_calculate. rewrite andb_false_r. reflexivity.
Qed.

Lemma power_repeated_multiply_witness :
  GF2m.power 3 5 2 3 11 = Ok (repeated_multiply 3 11 3 (Z.to_nat 5)) /\
  GF2m.power 3 0 2 3 11 = Ok 1 /\
  GF2m.power 0 0 2 3 11 = Ok 1.
Proof. apply (power_repeated_multiply 3 11 3 5); lia. Defined.

(** C6: for every element [a] and every nonzero element [b], the quotient
    [divide a b] multiplied by [b] is [a]; the quotient is 0 when [a = 0] and
    otherwise [multiply a (reciprocal b)]. *)
Theorem divide_then_multiply m p a b :
  descriptor m p -> 0 <= a < 2 ^ m -> 0 < b < 2 ^ m ->
  exists c r,
    GF2m.divide a b 2 m p = Ok c /\
    GF2m.reciprocal b 2 m p = Ok r /\
    GF2m.multiply c b 2 m p = a /\
    (a = 0 -> c = 0) /\
    (a <> 0 -> c = GF2m.multiply a r 2 m p).
Proof.
  intros [Hm [Hp Hirr]] Ha Hb.
  destruct (divide_spec m p Hm Hp Hirr a b Ha Hb)
    as [c [r [Hdiv [Hrec [_ [Hmul [Hzero Hnz]]]]]]].
  exists c, r. auto.
Qed.

Lemma divide_then_multiply_witness :
  exists c r,
    GF2m.divide 6 3 2 3 11 = Ok c /\
    GF2m.reciprocal 3 2 3 11 = Ok r /\
    GF2m.multiply c 3 2 3 11 = 6 /\
    (6 = 0 -> c = 0) /\
    (6 <> 0 -> c = GF2m.multiply 6 r 2 3 11).
Proof. apply (divide_then_multiply 3 11 6 3 gf8_descriptor); lia. Defined.

(** C7: for a primitive element [b] and every exponent [0 <= e < order - 1],
    the logarithm to base [b] of [power b e] is [e].  More generally, for
    every base [b] of the field, primitive or not, and every nonzero element
    [a] that is a power [b^k] of the base, the logarithm of [a] to base [b]
    is the least non-negative exponent [i] with [b^i = a]: the search stops
    at the first match, so that [i <= k] and [i <= order - 2].  To a
    primitive base every nonzero element has such a logarithm. *)
Theorem log_power_roundtrip m p :
  descriptor m p ->
  (forall b e,
     primitive_element m p b -> 0 <= e < 2 ^ m - 1 ->
     exists x, GF2m.power b e 2 m p = Ok x /\ GF2m.log x b 2 m p = Ok e) /\
  (forall a b k,
     0 < a < 2 ^ m -> 0 <= b < 2 ^ m -> 0 <= k ->
     GF2m.power b k 2 m p = Ok a ->
     exists i, GF2m.log a b 2 m p = Ok i /\
               0 <= i <= k /\ i <= 2 ^ m - 2 /\
               GF2m.power b i 2 m p = Ok a /\
               forall j, 0 <= j < i -> GF2m.power b j 2 m p <> Ok a) /\
  (forall a b,
     primitive_element m p b -> 0 < a < 2 ^ m ->
     exists i, GF2m.log a b 2 m p = Ok i /\
               0 <= i <= 2 ^ m - 2 /\
               GF2m.power b i 2 m p = Ok a /\
               forall j, 0 <= j < i -> GF2m.power b j 2 m p <> Ok a).
Proof.
  intros [Hm [Hp Hirr]].
  pose proof (order_ge_2 m Hm) as Hq.
  split; [|split].
  - intros b e Hprim He.
    assert (Hb : 0 <= b < 2 ^ m) by (destruct Hprim; lia).
    exists (repeated_multiply m p b (Z.to_nat e)).
    split; [apply power_nonneg; (lia || assumption)|].
    rewrite (log_repeated_multiply m p Hm Hp Hirr b Hprim) by lia.
    f_equal. lia.
  - intros a b k Ha Hb Hk Hpow.
    rewrite power_nonneg in Hpow by (lia || assumption).
    destruct (log_first_match m p Hm Hp Hirr a b (Z.to_nat k) Ha Hb
                ltac:(congruence))
      as [i [Hlog [Hi [Hik [Hfound Hmin]]]]].
    exists (Z.of_nat i). split; [assumption|].
    split; [lia|]. split; [lia|]. split.
    + rewrite power_nonneg, Nat2Z.id by (lia || assumption). congruence.
    + intros j Hj. rewrite power_nonneg by (lia || assumption).
      intros Heq. apply (Hmin (Z.to_nat j)); [lia|congruence].
  - intros a b Hprim Ha.
    assert (Hb : 0 <= b < 2 ^ m) by (destruct Hprim; lia).
    destruct (log_least m p Hm Hp Hirr b Hprim a Ha)
      as [i [Hlog [Hi [Hfound Hmin]]]].
    exists (Z.of_nat i). split; [assumption|]. split; [lia|]. split.
    + rewrite power_nonneg, Nat2Z.id by (lia || assumption). congruence.
    + intros j Hj. rewrite power_nonneg by (lia || assumption).
      intros Heq. apply (Hmin (Z.to_nat j)); [lia|congruence].
Qed.

(** In GF(2^4) with x^4 + x + 1 the base 6 is not primitive and
    [6^2 = 6^5 = 7]: the logarithm of 7 to base 6 is the first match. *)
Lemma log_power_roundtrip_witness :
  (exists x, GF2m.power 2 5 2 4 19 = Ok x /\ GF2m.log x 2 2 4 19 = Ok 5) /\
  (exists i, GF2m.log 7 6 2 4 19 = Ok i /\
             0 <= i <= 5 /\ i <= 2 ^ 4 - 2 /\
             GF2m.power 6 i 2 4 19 = Ok 7 /\
             forall j, 0 <= j < i -> GF2m.power 6 j 2 4 19 <> Ok 7) /\
  (exists i, GF2m.log 6 2 2 4 19 = Ok i /\
             0 <= i <= 2 ^ 4 - 2 /\
             GF2m.power 2 i 2 4 19 = Ok 6 /\
             forall j, 0 <= j < i -> GF2m.power 2 j 2 4 19 <> Ok 6).
Proof.
  destruct (log_power_roundtrip 4 19 gf16_descriptor) as [Hround [Hfirst Hprim]].
  split; [|split].
  - apply Hround; [exact gf16_primitive | lia].
  - apply Hfirst; [lia | lia | lia | vm_compute; reflexivity].
  - apply Hprim; [exact gf16_primitive | lia].
Defined.

(** C8: for every element [a], [sqrt a] is [a] to the power [2^(degree-1)]
    and its square is [a]. *)
Theorem sqrt_squared m p a :
  descriptor m p -> 0 <= a < 2 ^ m ->
  exists s,
    GF2m.sqrt a 2 m p = Ok s /\
    GF2m.power a (2 ^ (m - 1)) 2 m p = Ok s /\
    GF2m.multiply s s 2 m p = a.
Proof.
  intros [Hm [Hp Hirr]] Ha.
  assert (Hpos : 0 < 2 ^ (m - 1)) by (apply Z.pow_pos_nonneg; lia).
  exists (repeated_multiply m p a (Z.to_nat (2 ^ (m - 1)))).
  assert (Hpow : GF2m.power a (2 ^ (m - 1)) 2 m p
                 = Ok (repeated_multiply m p a (Z.to_nat (2 ^ (m - 1)))))
    by (apply power_nonneg; (lia || assumption)).
  split; [exact Hpow|]. split; [exact Hpow|].
  change (GF2m.multiply ?x ?y 2 m p) with (fmul m p x y).
  rewrite <- repeated_multiply_add by (lia || assumption).
  rewrite <- (repeated_multiply_order m p Hm Hp Hirr a Ha) at 2.
  f_equal. rewrite <- Z2Nat.inj_add by lia. f_equal.
  replace m with (m - 1 + 1) at 3 by lia.
  rewrite Z.pow_add_r by lia. lia.
Qed.

Lemma sqrt_squared_witness :
  exists s,
    GF2m.sqrt 5 2 3 11 = Ok s /\
    GF2m.power 5 (2 ^ (3 - 1)) 2 3 11 = Ok s /\
    GF2m.multiply s s 2 3 11 = 5.
Proof. apply (sqrt_squared 3 11 5 gf8_descriptor). lia. Defined.

(** C9: for [degree = 1] (GF(2), elements 0 and 1) and either polynomial of
    degree 1, which is irreducible: [multiply] is the logical AND and [add]
    the XOR of the two bits, and the composite kernels keep their contracts: [reciprocal 1] is 1
    (the loop starts with exponent 0), [divide x 1] is [x], [power] is the
    repeated product for exponents [>= 0] and 1 for negative exponents of 1,
    [log 1 y] is 0, [sqrt x] is [x] and its square is [x], and the
    operations on 0 raise as in every field. *)
Theorem gf2_degree_one p x y e :
  2 ^ 1 <= p < 2 ^ (1 + 1) -> 0 <= e ->
  descriptor 1 p /\
  GF2m.multiply (Z.b2z x) (Z.b2z y) 2 1 p = Z.b2z (x && y) /\
  GF2m._add_calculate (Z.b2z x) (Z.b2z y) 2 1 p = Z.b2z (xorb x y) /\
  GF2m.reciprocal 1 2 1 p = Ok 1 /\
  GF2m.multiply 1 1 2 1 p = 1 /\
  GF2m.divide (Z.b2z x) 1 2 1 p = Ok (Z.b2z x) /\
  GF2m.power (Z.b2z x) e 2 1 p
    = Ok (repeated_multiply 1 p (Z.b2z x) (Z.to_nat e)) /\
  GF2m.power 1 (- e - 1) 2 1 p = Ok 1 /\
  GF2m.log 1 (Z.b2z y) 2 1 p = Ok 0 /\
  GF2m.sqrt (Z.b2z x) 2 1 p = Ok (Z.b2z x) /\
  GF2m.multiply (Z.b2z x) (Z.b2z x) 2 1 p = Z.b2z x /\
  GF2m.reciprocal 0 2 1 p = Raise ZeroDivisionError /\
  GF2m.divide (Z.b2z x) 0 2 1 p = Raise ZeroDivisionError /\
  GF2m.log 0 (Z.b2z y) 2 1 p = Raise ArithmeticError.
Proof.
  intros Hp He.
  split; [apply gf2_descriptor; assumption|].
  assert (Hx : 0 <= Z.b2z x < 2 ^ 1) by (destruct x; simpl; lia).
  assert (Hpow : GF2m.power (Z.b2z x) e 2 1 p
                 = Ok (repeated_multiply 1 p (Z.b2z x) (Z.to_nat e)))
    by (apply power_nonneg; (lia || assumption)).
  assert (Hneg : GF2m.power 1 (- e - 1) 2 1 p = Ok 1).
  { rewrite power_neg by (simpl; lia).
    replace (Z.to_nat (2 ^ 1 - 2)) with 0%nat by reflexivity.
    cbn [repeated_multiply iter_mul]. f_equal.
    apply (iter_mul_one (2 ^ 1) (fmul 1 p)); [simpl; lia|].
    apply fmul_1_l; (lia || assumption). }
  assert (Hcases : p = 2 \/ p = 3) by (simpl in Hp; lia).
  rewrite Hpow, Hneg. clear Hpow Hneg Hx.
  destruct Hcases as [-> | ->]; destruct x, y; vm_compute; repeat split.
Qed.

Lemma gf2_degree_one_witness :
  descriptor 1 3 /\
  GF2m.multiply (Z.b2z true) (Z.b2z true) 2 1 3 = Z.b2z (true && true) /\
  GF2m._add_calculate (Z.b2z true) (Z.b2z true) 2 1 3 = Z.b2z (xorb true true) /\
  GF2m.reciprocal 1 2 1 3 = Ok 1 /\
  GF2m.multiply 1 1 2 1 3 = 1 /\
  GF2m.divide (Z.b2z true) 1 2 1 3 = Ok (Z.b2z true) /\
  GF2m.power (Z.b2z true) 4 2 1 3
    = Ok (repeated_multiply 1 3 (Z.b2z true) (Z.to_nat 4)) /\
  GF2m.power 1 (- 4 - 1) 2 1 3 = Ok 1 /\
  GF2m.log 1 (Z.b2z true) 2 1 3 = Ok 0 /\
  GF2m.sqrt (Z.b2z true) 2 1 3 = Ok (Z.b2z true) /\
  GF2m.multiply (Z.b2z true) (Z.b2z true) 2 1 3 = Z.b2z true /\
  GF2m.reciprocal 0 2 1 3 = Raise ZeroDivisionError /\
  GF2m.divide (Z.b2z true) 0 2 1 3 = Raise ZeroDivisionError /\
  GF2m.log 0 (Z.b2z true) 2 1 3 = Raise ArithmeticError.
Proof. apply (gf2_degree_one 3 true true 4); lia. Defined.

(** C10: for every nonzero element [a] and every element [b], primitive or
    not, [log a b] raises nothing and returns a value in [[0, order - 2]];
    when no exponent [e] in [[0, order - 2]] has [b^e = a], the value is
    [order - 2]. *)
Theorem log_total_on_nonzero m p a b :
  1 <= m -> 2 ^ m <= p < 2 ^ (m + 1) -> 0 < a < 2 ^ m -> 0 <= b < 2 ^ m ->
  exists i,
    GF2m.log a b 2 m p = Ok i /\ 0 <= i <= 2 ^ m - 2 /\
    ((forall e, 0 <= e <= 2 ^ m - 2 -> GF2m.power b e 2 m p <> Ok a) ->
     i = 2 ^ m - 2).
Proof.
  intros Hm Hp Ha Hb.
  pose proof (order_ge_2 m Hm) as Hq.
  destruct (log_spec m p Hm Hp a b Ha Hb)
    as [i [Hlog [Hi [[Hpow _]|[Hlast _]]]]].
  - exists (Z.of_nat i). split; [assumption|]. split; [lia|].
    intros Hnone. exfalso. apply (Hnone (Z.of_nat i)); [lia|].
    rewrite power_nonneg, Nat2Z.id by (lia || assumption). congruence.
  - exists (Z.of_nat i). split; [assumption|]. split; lia.
Qed.

Lemma log_total_on_nonzero_witness :
  exists i,
    GF2m.log 3 0 2 3 11 = Ok i /\ 0 <= i <= 2 ^ 3 - 2 /\
    ((forall e, 0 <= e <= 2 ^ 3 - 2 -> GF2m.power 0 e 2 3 11 <> Ok 3) ->
     i = 2 ^ 3 - 2).
Proof. apply (log_total_on_nonzero 3 11 3 0); lia. Defined.

(** ** Further laws of the kernels *)

Section RingLaws.

Variables m p : Z.
Hypothesis Hm : 1 <= m.
Hypothesis Hp : 2 ^ m <= p < 2 ^ (m + 1).

Lemma fmul_1_r a : 0 <= a < 2 ^ m -> fmul m p a 1 = a.
Proof.
  intros Ha. pose proof (order_ge_2 m Hm).
  rewrite fmul_comm by (lia || assumption).
  apply fmul_1_l; assumption.
Qed.

Lemma fmul_lxor_r a b c :
  0 <= a < 2 ^ m -> 0 <= b < 2 ^ m -> 0 <= c < 2 ^ m ->
  fmul m p a (Z.lxor b c) = Z.lxor (fmul m p a b) (fmul m p a c).
Proof.
  intros Ha Hb Hc.
  pose proof (lxor_bound m b c ltac:(lia) Hb Hc).
  pose proof (Z.pow_pos_nonneg 2 m).
  rewrite !fmul_pmod by (lia || assumption).
  rewrite clmul_lxor_r, pmod_lxor by (auto with gf2; lia).
  reflexivity.
Qed.

Lemma fmul_lxor_l a b c :
  0 <= a < 2 ^ m -> 0 <= b < 2 ^ m -> 0 <= c < 2 ^ m ->
  fmul m p (Z.lxor a b) c = Z.lxor (fmul m p a c) (fmul m p b c).
Proof.
  intros Ha Hb Hc.
  pose proof (lxor_bound m a b ltac:(lia) Ha Hb).
  rewrite fmul_comm, fmul_lxor_r by assumption.
  rewrite (fmul_comm m p Hm Hp c a), (fmul_comm m p Hm Hp c b) by assumption.
  reflexivity.
Qed.

Lemma rm_closed a e : 0 <= a < 2 ^ m -> 0 <= repeated_multiply m p a e < 2 ^ m.
Proof.
  intros Ha.
  apply (iter_mul_closed (2 ^ m) (fmul m p));
    auto using order_ge_2, fmul_closed.
Qed.

Lemma rm_mul a e1 e2 :
  0 <= a < 2 ^ m ->
  repeated_multiply m p a (e1 * e2)
  = repeated_multiply m p (repeated_multiply m p a e1) e2.
Proof.
  intros Ha.
  apply (iter_mul_mul (2 ^ m) (fmul m p));
    auto using order_ge_2, fmul_closed, fmul_assoc, fmul_1_l.
Qed.

Lemma rm_base a b e :
  0 <= a < 2 ^ m -> 0 <= b < 2 ^ m ->
  repeated_multiply m p (fmul m p a b) e
  = fmul m p (repeated_multiply m p a e) (repeated_multiply m p b e).
Proof.
  intros Ha Hb.
  apply (iter_mul_base (2 ^ m) (fmul m p));
    auto using order_ge_2, fmul_closed, fmul_comm, fmul_assoc, fmul_1_l.
Qed.

Lemma rm_one e : repeated_multiply m p 1 e = 1.
Proof.
  apply (iter_mul_one (2 ^ m) (fmul m p));
    auto using order_ge_2, fmul_1_l.
Qed.

Lemma rm_zero e : repeated_multiply m p 0 (S e) = 0.
Proof.
  pose proof (order_ge_2 m Hm).
  cbn [repeated_multiply iter_mul]. apply fmul_0_l; try assumption.
  apply (rm_closed 0 e). lia.
Qed.

Lemma rm_1 a : 0 <= a < 2 ^ m -> repeated_multiply m p a 1 = a.
Proof. intros Ha. cbn [repeated_multiply iter_mul]. apply fmul_1_r. assumption. Qed.

End RingLaws.

Section FieldLaws.

Variables m p : Z.
Hypothesis Hm : 1 <= m.
Hypothesis Hp : 2 ^ m <= p < 2 ^ (m + 1).
Hypothesis Hirr : irreducible p.

Lemma fmul_cancel_l a x y :
  0 < a < 2 ^ m -> 0 <= x < 2 ^ m -> 0 <= y < 2 ^ m ->
  fmul m p a x = fmul m p a y -> x = y.
Proof.
  apply (mul_cancel_l (2 ^ m) (fmul m p));
    auto using fmul_comm, fmul_assoc, fmul_1_l, fmul_inv.
Qed.

Lemma fmul_nonzero a b :
  0 < a < 2 ^ m -> 0 < b < 2 ^ m -> 0 < fmul m p a b < 2 ^ m.
Proof.
  apply (mul_nonzero (2 ^ m) (fmul m p));
    auto using order_ge_2, fmul_closed, fmul_comm, fmul_assoc, fmul_1_l,
      fmul_0_l, fmul_inv.
Qed.

Lemma rm_nonzero a e : 0 < a < 2 ^ m -> 0 < repeated_multiply m p a e < 2 ^ m.
Proof.
  apply (iter_mul_nonzero (2 ^ m) (fmul m p));
    auto using order_ge_2, fmul_closed, fmul_comm, fmul_assoc, fmul_1_l,
      fmul_0_l, fmul_inv.
Qed.

Lemma rm_fermat a :
  0 < a < 2 ^ m -> repeated_multiply m p a (Z.to_nat (2 ^ m - 1)) = 1.
Proof.
  apply (fermat (2 ^ m) (fmul m p));
    auto using order_ge_2, fmul_closed, fmul_comm, fmul_assoc, fmul_1_l,
      fmul_0_l, fmul_inv.
Qed.

Lemma rm_mod a e :
  0 < a < 2 ^ m ->
  repeated_multiply m p a e
  = repeated_multiply m p a (e mod Z.to_nat (2 ^ m - 1)).
Proof.
  apply (iter_mul_mod (2 ^ m) (fmul m p));
    auto using order_ge_2, fmul_closed, fmul_comm, fmul_assoc, fmul_1_l,
      fmul_0_l, fmul_inv.
Qed.

(** The inverse of an element is unique. *)
Lemma reciprocal_unique a b :
  0 < a < 2 ^ m -> 0 <= b < 2 ^ m -> fmul m p a b = 1 ->
  GF2m.reciprocal a 2 m p = Ok b.
Proof.
  intros Ha Hb Hab.
  destruct (reciprocal_inverse m p Hm Hp Hirr a Ha) as [r [Hr [Hrq Hinv]]].
  rewrite Hr. f_equal. apply (fmul_cancel_l a); (lia || congruence).
Qed.

End FieldLaws.

Lemma to_nat_pow2 k : 0 <= k -> Z.to_nat (2 ^ k) = (2 ^ Z.to_nat k)%nat.
Proof. intros Hk. rewrite Z2Nat.inj_pow by lia. reflexivity. Qed.

Section Frobenius.

Variables m p : Z.
Hypothesis Hm : 1 <= m.
Hypothesis Hp : 2 ^ m <= p < 2 ^ (m + 1).

Lemma fmul4 a b c d :
  0 <= a < 2 ^ m -> 0 <= b < 2 ^ m -> 0 <= c < 2 ^ m -> 0 <= d < 2 ^ m ->
  fmul m p (fmul m p a b) (fmul m p c d)
  = fmul m p (fmul m p a c) (fmul m p b d).
Proof.
  apply (mul4 (2 ^ m) (fmul m p));
    auto using order_ge_2, fmul_closed, fmul_comm, fmul_assoc, fmul_1_l.
Qed.

Lemma rm_square a e :
  0 <= a < 2 ^ m ->
  repeated_multiply m p (fmul m p a a) e = repeated_multiply m p a (2 * e).
Proof.
  intros Ha. rewrite rm_base by assumption.
  replace (2 * e)%nat with (e + e)%nat by lia.
  rewrite repeated_multiply_add by assumption. reflexivity.
Qed.

(** Squaring is additive in characteristic 2. *)
Lemma fmul_square_lxor a b :
  0 <= a < 2 ^ m -> 0 <= b < 2 ^ m ->
  fmul m p (Z.lxor a b) (Z.lxor a b)
  = Z.lxor (fmul m p a a) (fmul m p b b).
Proof.
  intros Ha Hb.
  pose proof (lxor_bound m a b ltac:(lia) Ha Hb) as Hab.
  rewrite fmul_lxor_l, !fmul_lxor_r by assumption.
  rewrite (fmul_comm m p Hm Hp b a) by assumption. xor_ac.
Qed.

Lemma rm_pow2_lxor j : forall a b,
  0 <= a < 2 ^ m -> 0 <= b < 2 ^ m ->
  repeated_multiply m p (Z.lxor a b) (2 ^ j)
  = Z.lxor (repeated_multiply m p a (2 ^ j)) (repeated_multiply m p b (2 ^ j)).
Proof.
  induction j as [|j IH]; intros a b Ha Hb.
  - pose proof (lxor_bound m a b ltac:(lia) Ha Hb) as Hab.
    change (2 ^ 0)%nat with 1%nat. rewrite !rm_1 by assumption. reflexivity.
  - pose proof (lxor_bound m a b ltac:(lia) Ha Hb) as Hab.
    rewrite Nat.pow_succ_r'.
    rewrite <- !rm_square by assumption.
    rewrite fmul_square_lxor by assumption.
    apply IH; apply fmul_closed; assumption.
Qed.

Hypothesis Hirr : irreducible p.

Lemma fmul_reciprocal a :
  0 < a < 2 ^ m ->
  fmul m p a (repeated_multiply m p a (Z.to_nat (2 ^ m - 2))) = 1.
Proof.
  intros Ha.
  destruct (reciprocal_inverse m p Hm Hp Hirr a Ha) as [r [Hr [_ Hinv]]].
  rewrite reciprocal_power in Hr by assumption. congruence.
Qed.

(** Powers of the inverse are inverses of the powers. *)
Lemma rm_inverse a k :
  0 < a < 2 ^ m ->
  fmul m p (repeated_multiply m p a k)
    (repeated_multiply m p (repeated_multiply m p a (Z.to_nat (2 ^ m - 2))) k)
  = 1.
Proof.
  intros Ha.
  pose proof (rm_closed m p Hm Hp a (Z.to_nat (2 ^ m - 2)) ltac:(lia)).
  rewrite <- rm_base, fmul_reciprocal by (lia || assumption).
  apply rm_one; assumption.
Qed.

End Frobenius.

(** ** Further properties of the kernels *)

(** X1: on the elements [[0, 2^m)], [_add_calculate] is closed, commutative
    and associative, 0 is its unit and every element is its own opposite. *)
Theorem add_calculate_group m a b c C D P :
  0 <= m -> 0 <= a < 2 ^ m -> 0 <= b < 2 ^ m -> 0 <= c < 2 ^ m ->
  0 <= GF2m._add_calculate a b C D P < 2 ^ m /\
  GF2m._add_calculate a b C D P = GF2m._add_calculate b a C D P /\
  GF2m._add_calculate (GF2m._add_calculate a b C D P) c C D P
  = GF2m._add_calculate a (GF2m._add_calculate b c C D P) C D P /\
  GF2m._add_calculate a 0 C D P = a /\
  GF2m._add_calculate a a C D P = 0.
Proof.
  intros Hm Ha Hb Hc. unfold GF2m._add_calculate.
  split; [apply lxor_bound; assumption|].
  split; [apply Z.lxor_comm|].
  split; [apply Z.lxor_assoc|].
  split; [apply Z.lxor_0_r|apply Z.lxor_nilpotent].
Qed.

Lemma add_calculate_group_witness :
  0 <= GF2m._add_calculate 3 6 2 3 11 < 2 ^ 3 /\
  GF2m._add_calculate 3 6 2 3 11 = GF2m._add_calculate 6 3 2 3 11 /\
  GF2m._add_calculate (GF2m._add_calculate 3 6 2 3 11) 5 2 3 11
  = GF2m._add_calculate 3 (GF2m._add_calculate 6 5 2 3 11) 2 3 11 /\
  GF2m._add_calculate 3 0 2 3 11 = 3 /\
  GF2m._add_calculate 3 3 2 3 11 = 0.
Proof. apply (add_calculate_group 3 3 6 5 2 3 11); lia. Defined.

(** X2: subtraction undoes addition and addition undoes subtraction, for
    all integers; subtracting is adding the opposite, and an element plus
    its opposite is 0. *)
Theorem subtract_add_roundtrip a b C D P :
  GF2m._subtract_calculate (GF2m._add_calculate a b C D P) b C D P = a /\
  GF2m._add_calculate (GF2m._subtract_calculate a b C D P) b C D P = a /\
  GF2m._subtract_calculate a b C D P
  = GF2m._add_calculate a (GF2m._negative_calculate b C D P) C D P /\
  GF2m._add_calculate a (GF2m._negative_calculate a C D P) C D P = 0.
Proof.
  unfold GF2m._subtract_calculate, GF2m._add_calculate,
    GF2m._negative_calculate.
  repeat split; xor_ac.
Qed.


Lemma multiply_while_nonpositive fuel ORDER P a b c :
  b <= 0 -> GF2m.multiply_while fuel ORDER P a b c = c.
Proof.
  intros Hb. destruct fuel; simpl; destruct (Z.gtb_spec b 0); (lia || reflexivity).
Qed.

(** A product with a zero or negative operand, in a field of degree [m]. *)
Lemma fmul_nonpositive m p x y :
  0 <= m -> Z.min x y <= 0 -> fmul m p x y = 0.
Proof.
  intros _ Hmin. unfold fmul, GF2m.multiply, GF2m._multiply_calculate.
  destruct (Z.gtb_spec y x); apply multiply_while_nonpositive; lia.
Qed.

(** X4: for [DEGREE >= 0], when one operand is zero or negative,
    [_multiply_calculate] returns 0 without entering its loop, whatever the
    other operand, the characteristic and the polynomial are. *)
Theorem multiply_calculate_nonpositive a b C D P :
  0 <= D -> Z.min a b <= 0 -> GF2m._multiply_calculate a b C D P = 0.
Proof.
  intros _ Hmin. unfold GF2m._multiply_calculate.
  destruct (Z.gtb_spec b a); apply multiply_while_nonpositive; lia.
Qed.

Lemma multiply_calculate_nonpositive_witness :
  GF2m._multiply_calculate 5 0 2 3 11 = 0.
Proof. apply (multiply_calculate_nonpositive 5 0 2 3 11); lia. Defined.

(** X5: for every polynomial of degree [m], [multiply] is associative on
    the elements and 1 is its unit on both sides. *)
Theorem multiply_associative_unit m p a b c :
  1 <= m -> 2 ^ m <= p < 2 ^ (m + 1) ->
  0 <= a < 2 ^ m -> 0 <= b < 2 ^ m -> 0 <= c < 2 ^ m ->
  GF2m.multiply (GF2m.multiply a b 2 m p) c 2 m p
  = GF2m.multiply a (GF2m.multiply b c 2 m p) 2 m p /\
  GF2m.multiply 1 a 2 m p = a /\
  GF2m.multiply a 1 2 m p = a.
Proof.
  intros Hm Hp Ha Hb Hc.
  split; [apply (fmul_assoc m p Hm Hp); assumption|].
  split; [apply (fmul_1_l m p Hm Hp); assumption|].
  apply (fmul_1_r m p Hm Hp); assumption.
Qed.

Lemma multiply_associative_unit_witness :
  GF2m.multiply (GF2m.multiply 3 6 2 3 11) 5 2 3 11
  = GF2m.multiply 3 (GF2m.multiply 6 5 2 3 11) 2 3 11 /\
  GF2m.multiply 1 3 2 3 11 = 3 /\
  GF2m.multiply 3 1 2 3 11 = 3.
Proof. apply (multiply_associative_unit 3 11 3 6 5); lia. Defined.

(** X6: [multiply] distributes over [_add_calculate] on both sides. *)
Theorem multiply_distributes_over_add m p a b c :
  1 <= m -> 2 ^ m <= p < 2 ^ (m + 1) ->
  0 <= a < 2 ^ m -> 0 <= b < 2 ^ m -> 0 <= c < 2 ^ m ->
  GF2m.multiply a (GF2m._add_calculate b c 2 m p) 2 m p
  = GF2m._add_calculate (GF2m.multiply a b 2 m p) (GF2m.multiply a c 2 m p)
      2 m p /\
  GF2m.multiply (GF2m._add_calculate a b 2 m p) c 2 m p
  = GF2m._add_calculate (GF2m.multiply a c 2 m p) (GF2m.multiply b c 2 m p)
      2 m p.
Proof.
  intros Hm Hp Ha Hb Hc. unfold GF2m._add_calculate.
  split; [apply (fmul_lxor_r m p Hm Hp)|apply (fmul_lxor_l m p Hm Hp)];
    assumption.
Qed.

Lemma multiply_distributes_over_add_witness :
  GF2m.multiply 3 (GF2m._add_calculate 6 5 2 3 11) 2 3 11
  = GF2m._add_calculate (GF2m.multiply 3 6 2 3 11) (GF2m.multiply 3 5 2 3 11)
      2 3 11 /\
  GF2m.multiply (GF2m._add_calculate 3 6 2 3 11) 5 2 3 11
  = GF2m._add_calculate (GF2m.multiply 3 5 2 3 11) (GF2m.multiply 6 5 2 3 11)
      2 3 11.
Proof. apply (multiply_distributes_over_add 3 11 3 6 5); lia. Defined.

(** X7: in a field the product of two elements is 0 exactly when one of
    them is 0. *)
Theorem multiply_zero_iff m p a b :
  descriptor m p -> 0 <= a < 2 ^ m -> 0 <= b < 2 ^ m ->
  GF2m.multiply a b 2 m p = 0 <-> a = 0 \/ b = 0.
Proof.
  intros [Hm [Hp Hirr]] Ha Hb. split.
  - intros Hz.
    destruct (Z.eq_dec a 0) as [|Ha0]; [left; assumption|].
    destruct (Z.eq_dec b 0) as [|Hb0]; [right; assumption|exfalso].
    pose proof (fmul_nonzero m p Hm Hp Hirr a b ltac:(lia) ltac:(lia)) as Hnz.
    unfold fmul in Hnz. lia.
  - intros [-> | ->]; apply fmul_nonpositive; lia.
Qed.

Lemma multiply_zero_iff_witness :
  GF2m.multiply 3 0 2 3 11 = 0 <-> 3 = 0 \/ 0 = 0.
Proof. apply (multiply_zero_iff 3 11 3 0 gf8_descriptor); lia. Defined.

(** X8: the kernels do not check that the polynomial is irreducible.  When
    it is the product of two polynomials [u], [v] of degree at least 1,
    these are nonzero elements with product 0, [u] has no inverse, and
    [reciprocal u] still returns a value, which is not an inverse. *)
Theorem reducible_polynomial_zero_divisors m p u v :
  1 <= m -> 2 ^ m <= p < 2 ^ (m + 1) -> 2 <= u -> 2 <= v -> clmul u v = p ->
  0 < u < 2 ^ m /\ 0 < v < 2 ^ m /\
  GF2m.multiply u v 2 m p = 0 /\
  (forall w, 0 <= w < 2 ^ m -> GF2m.multiply u w 2 m p <> 1) /\
  exists r, GF2m.reciprocal u 2 m p = Ok r /\ GF2m.multiply u r 2 m p <> 1.
Proof.
  intros Hm Hp Hu Hv Huv.
  assert (Hpow : 0 < 2 ^ m) by (apply Z.pow_pos_nonneg; lia).
  destruct (clmul_degree u v ltac:(lia) ltac:(lia)) as [_ Hdeg].
  rewrite Huv, (log2_of_bounds m p) in Hdeg by (lia || assumption).
  assert (1 <= Z.log2 u)
    by (apply Z.log2_le_pow2; [lia|change (2 ^ 1) with 2; lia]).
  assert (1 <= Z.log2 v)
    by (apply Z.log2_le_pow2; [lia|change (2 ^ 1) with 2; lia]).
  assert (Hul : u < 2 ^ m) by (apply Z.log2_lt_pow2; lia).
  assert (Hvl : v < 2 ^ m) by (apply Z.log2_lt_pow2; lia).
  assert (Hzero : fmul m p u v = 0).
  { rewrite fmul_pmod, Huv by lia.
    rewrite <- (clmul_1_l p) at 1 by lia. apply pmod_multiple; lia. }
  assert (Hnone : forall w, 0 <= w < 2 ^ m -> fmul m p u w <> 1).
  { intros w Hw Hone.
    assert (Hv0 : v = 0); [|lia].
    rewrite <- (fmul_1_r m p Hm Hp v), <- Hone by lia.
    rewrite <- fmul_assoc, (fmul_comm m p Hm Hp v u), Hzero by lia.
    apply fmul_0_l; (lia || assumption). }
  split; [lia|]. split; [lia|]. split; [exact Hzero|]. split; [exact Hnone|].
  exists (repeated_multiply m p u (Z.to_nat (2 ^ m - 2))).
  split; [apply reciprocal_power; (lia || assumption)|].
  apply Hnone. apply rm_closed; (lia || assumption).
Qed.

Lemma reducible_polynomial_zero_divisors_witness :
  0 < 3 < 2 ^ 2 /\ 0 < 3 < 2 ^ 2 /\
  GF2m.multiply 3 3 2 2 5 = 0 /\
  (forall w, 0 <= w < 2 ^ 2 -> GF2m.multiply 3 w 2 2 5 <> 1) /\
  exists r, GF2m.reciprocal 3 2 2 5 = Ok r /\ GF2m.multiply 3 r 2 2 5 <> 1.
Proof.
  apply (reducible_polynomial_zero_divisors 2 5 3 3); (lia || reflexivity).
Defined.

(** X9: the laws of exponents for non-negative exponents: [power] turns
    sums of exponents into products, and a power of a power is the power
    with the product of the exponents. *)
Theorem power_exponent_laws m p a e1 e2 :
  1 <= m -> 2 ^ m <= p < 2 ^ (m + 1) -> 0 <= a < 2 ^ m ->
  0 <= e1 -> 0 <= e2 ->
  exists x y,
    GF2m.power a e1 2 m p = Ok x /\ GF2m.power a e2 2 m p = Ok y /\
    GF2m.power a (e1 + e2) 2 m p = Ok (GF2m.multiply x y 2 m p) /\
    GF2m.power x e2 2 m p = GF2m.power a (e1 * e2) 2 m p.
Proof.
  intros Hm Hp Ha He1 He2.
  exists (repeated_multiply m p a (Z.to_nat e1)),
         (repeated_multiply m p a (Z.to_nat e2)).
  pose proof (rm_closed m p Hm Hp a (Z.to_nat e1) Ha).
  rewrite !power_nonneg by (assumption || lia).
  split; [reflexivity|]. split; [reflexivity|]. split.
  - rewrite Z2Nat.inj_add, repeated_multiply_add by assumption. reflexivity.
  - rewrite Z2Nat.inj_mul, rm_mul by assumption. reflexivity.
Qed.

Lemma power_exponent_laws_witness :
  exists x y,
    GF2m.power 3 2 2 3 11 = Ok x /\ GF2m.power 3 5 2 3 11 = Ok y /\
    GF2m.power 3 (2 + 5) 2 3 11 = Ok (GF2m.multiply x y 2 3 11) /\
    GF2m.power x 5 2 3 11 = GF2m.power 3 (2 * 5) 2 3 11.
Proof. apply (power_exponent_laws 3 11 3 2 5); lia. Defined.

(** X10: a non-negative power of a product is the product of the
    powers. *)
Theorem power_of_product m p a b e :
  1 <= m -> 2 ^ m <= p < 2 ^ (m + 1) ->
  0 <= a < 2 ^ m -> 0 <= b < 2 ^ m -> 0 <= e ->
  exists x y,
    GF2m.power a e 2 m p = Ok x /\ GF2m.power b e 2 m p = Ok y /\
    GF2m.power (GF2m.multiply a b 2 m p) e 2 m p
    = Ok (GF2m.multiply x y 2 m p).
Proof.
  intros Hm Hp Ha Hb He.
  exists (repeated_multiply m p a (Z.to_nat e)),
         (repeated_multiply m p b (Z.to_nat e)).
  pose proof (fmul_closed m p Hm Hp a b Ha Hb).
  rewrite !power_nonneg by (assumption || lia).
  split; [reflexivity|]. split; [reflexivity|].
  change (GF2m.multiply a b 2 m p) with (fmul m p a b).
  rewrite rm_base by assumption. reflexivity.
Qed.

Lemma power_of_product_witness :
  exists x y,
    GF2m.power 3 4 2 3 11 = Ok x /\ GF2m.power 6 4 2 3 11 = Ok y /\
    GF2m.power (GF2m.multiply 3 6 2 3 11) 4 2 3 11
    = Ok (GF2m.multiply x y 2 3 11).
Proof. apply (power_of_product 3 11 3 6 4); lia. Defined.

(** X11: for a nonzero element, the powers with exponents [e] and [-e] are
    inverse to each other, for every integer [e]. *)
Theorem power_negated_exponent m p a e :
  descriptor m p -> 0 < a < 2 ^ m ->
  exists x y,
    GF2m.power a e 2 m p = Ok x /\ GF2m.power a (- e) 2 m p = Ok y /\
    GF2m.multiply x y 2 m p = 1.
Proof.
  intros [Hm [Hp Hirr]] Ha.
  set (r := repeated_multiply m p a (Z.to_nat (2 ^ m - 2))).
  assert (Hr : 0 <= r < 2 ^ m) by (apply rm_closed; (lia || assumption)).
  destruct (Z.lt_trichotomy e 0) as [Hneg|[->|Hpos]].
  - exists (repeated_multiply m p r (Z.to_nat (- e))),
           (repeated_multiply m p a (Z.to_nat (- e))).
    split; [apply power_neg; assumption|].
    split; [apply power_nonneg; (lia || assumption)|].
    change (GF2m.multiply ?x ?y 2 m p) with (fmul m p x y).
    rewrite (fmul_comm m p Hm Hp) by (apply rm_closed; (lia || assumption)).
    apply rm_inverse; assumption.
  - exists 1, 1.
    split; [apply (power_nonneg m p Hm Hp a 0); lia|].
    split; [apply (power_nonneg m p Hm Hp a 0); lia|].
    apply (fmul_1_l m p Hm Hp). pose proof (order_ge_2 m Hm). lia.
  - exists (repeated_multiply m p a (Z.to_nat e)),
           (repeated_multiply m p r (Z.to_nat e)).
    split; [apply power_nonneg; (lia || assumption)|].
    split.
    + rewrite power_neg by (lia || assumption).
      replace (- - e) with e by lia. reflexivity.
    + apply rm_inverse; assumption.
Qed.

Lemma power_negated_exponent_witness :
  exists x y,
    GF2m.power 3 5 2 3 11 = Ok x /\ GF2m.power 3 (- 5) 2 3 11 = Ok y /\
    GF2m.multiply x y 2 3 11 = 1.
Proof. apply (power_negated_exponent 3 11 3 5 gf8_descriptor). lia. Defined.

(** X12: Fermat's little theorem for the power kernel: a nonzero element to
    the power [order - 1] is 1, adding [order - 1] to a non-negative exponent
    changes nothing, and every element to the power [order] is itself. *)
Theorem power_fermat m p a b e :
  descriptor m p -> 0 < a < 2 ^ m -> 0 <= b < 2 ^ m -> 0 <= e ->
  GF2m.power a (2 ^ m - 1) 2 m p = Ok 1 /\
  GF2m.power a (e + (2 ^ m - 1)) 2 m p = GF2m.power a e 2 m p /\
  GF2m.power b (2 ^ m) 2 m p = Ok b.
Proof.
  intros [Hm [Hp Hirr]] Ha Hb He.
  pose proof (order_ge_2 m Hm) as Hq.
  rewrite !power_nonneg by (lia || assumption).
  split; [rewrite rm_fermat by assumption; reflexivity|]. split.
  - rewrite Z2Nat.inj_add, repeated_multiply_add by (lia || assumption).
    rewrite rm_fermat, fmul_1_r by (try apply rm_closed; (lia || assumption)).
    reflexivity.
  - rewrite repeated_multiply_order by assumption. reflexivity.
Qed.

Lemma power_fermat_witness :
  GF2m.power 3 (2 ^ 3 - 1) 2 3 11 = Ok 1 /\
  GF2m.power 3 (4 + (2 ^ 3 - 1)) 2 3 11 = GF2m.power 3 4 2 3 11 /\
  GF2m.power 0 (2 ^ 3) 2 3 11 = Ok 0.
Proof. apply (power_fermat 3 11 3 0 4 gf8_descriptor); lia. Defined.

(** X13: the reciprocal is an involution, and it is the only inverse:
    whenever [multiply a b] is 1, [reciprocal a] returns [b]. *)
Theorem reciprocal_involution m p a b :
  descriptor m p -> 0 < a < 2 ^ m -> 0 <= b < 2 ^ m ->
  (exists r, GF2m.reciprocal a 2 m p = Ok r /\
             GF2m.reciprocal r 2 m p = Ok a) /\
  (GF2m.multiply a b 2 m p = 1 -> GF2m.reciprocal a 2 m p = Ok b).
Proof.
  intros [Hm [Hp Hirr]] Ha Hb. split.
  - destruct (reciprocal_inverse m p Hm Hp Hirr a Ha) as [r [Hr [Hrq Hinv]]].
    exists r. split; [assumption|].
    apply reciprocal_unique; try (lia || assumption).
    rewrite fmul_comm by (lia || assumption). assumption.
  - intros Hone. apply reciprocal_unique; assumption.
Qed.

Lemma reciprocal_involution_witness :
  (exists r, GF2m.reciprocal 2 2 3 11 = Ok r /\
             GF2m.reciprocal r 2 3 11 = Ok 2) /\
  (GF2m.multiply 2 5 2 3 11 = 1 -> GF2m.reciprocal 2 2 3 11 = Ok 5).
Proof. apply (reciprocal_involution 3 11 2 5 gf8_descriptor); lia. Defined.

(** X14: the reciprocal of a product of nonzero elements is the product of
    the reciprocals. *)
Theorem reciprocal_of_product m p a b :
  descriptor m p -> 0 < a < 2 ^ m -> 0 < b < 2 ^ m ->
  exists ra rb,
    GF2m.reciprocal a 2 m p = Ok ra /\ GF2m.reciprocal b 2 m p = Ok rb /\
    GF2m.reciprocal (GF2m.multiply a b 2 m p) 2 m p
    = Ok (GF2m.multiply ra rb 2 m p).
Proof.
  intros [Hm [Hp Hirr]] Ha Hb.
  destruct (reciprocal_inverse m p Hm Hp Hirr a Ha) as [ra [Hra [Hraq Hia]]].
  destruct (reciprocal_inverse m p Hm Hp Hirr b Hb) as [rb [Hrb [Hrbq Hib]]].
  exists ra, rb. split; [assumption|]. split; [assumption|].
  apply reciprocal_unique; try assumption.
  - apply (fmul_nonzero m p Hm Hp Hirr); assumption.
  - apply fmul_closed; (lia || assumption).
  - change (GF2m.multiply ?x ?y 2 m p) with (fmul m p x y).
    rewrite fmul4, Hia, Hib by (lia || assumption).
    apply (fmul_1_l m p Hm Hp). pose proof (order_ge_2 m Hm). lia.
Qed.

Lemma reciprocal_of_product_witness :
  exists ra rb,
    GF2m.reciprocal 3 2 3 11 = Ok ra /\ GF2m.reciprocal 5 2 3 11 = Ok rb /\
    GF2m.reciprocal (GF2m.multiply 3 5 2 3 11) 2 3 11
    = Ok (GF2m.multiply ra rb 2 3 11).
Proof. apply (reciprocal_of_product 3 11 3 5 gf8_descriptor); lia. Defined.

(** X15: division undoes multiplication: [divide (multiply a b) b] is [a];
    a nonzero element divided by itself is 1 and every element divided by 1
    is itself. *)
Theorem divide_after_multiply m p a b :
  descriptor m p -> 0 <= a < 2 ^ m -> 0 < b < 2 ^ m ->
  GF2m.divide (GF2m.multiply a b 2 m p) b 2 m p = Ok a /\
  GF2m.divide b b 2 m p = Ok 1 /\
  GF2m.divide a 1 2 m p = Ok a.
Proof.
  intros [Hm [Hp Hirr]] Ha Hb.
  pose proof (order_ge_2 m Hm) as Hq.
  assert (Hcancel : forall x y d, 0 <= x < 2 ^ m -> 0 <= y < 2 ^ m ->
            0 < d < 2 ^ m -> fmul m p x d = fmul m p y d -> x = y).
  { intros x y d Hx Hy Hd Heq. apply (fmul_cancel_l m p Hm Hp Hirr d);
      try assumption.
    rewrite (fmul_comm m p Hm Hp d x), (fmul_comm m p Hm Hp d y) by lia.
    assumption. }
  pose proof (fmul_closed m p Hm Hp a b Ha ltac:(lia)) as Hab.
  split; [|split].
  - destruct (divide_spec m p Hm Hp Hirr (GF2m.multiply a b 2 m p) b Hab Hb)
      as [c [r [Hdiv [_ [Hc [Hmul _]]]]]].
    rewrite Hdiv. f_equal. apply (Hcancel c a b); assumption.
  - destruct (divide_spec m p Hm Hp Hirr b b ltac:(lia) Hb)
      as [c [r [Hdiv [_ [Hc [Hmul _]]]]]].
    rewrite Hdiv. f_equal. apply (Hcancel c 1 b); try (lia || assumption).
    rewrite Hmul. symmetry. apply fmul_1_l; (lia || assumption).
  - destruct (divide_spec m p Hm Hp Hirr a 1 Ha ltac:(lia))
      as [c [r [Hdiv [_ [Hc [Hmul _]]]]]].
    rewrite Hdiv. f_equal.
    rewrite fmul_1_r in Hmul by assumption. assumption.
Qed.

Lemma divide_after_multiply_witness :
  GF2m.divide (GF2m.multiply 6 3 2 3 11) 3 2 3 11 = Ok 6 /\
  GF2m.divide 3 3 2 3 11 = Ok 1 /\
  GF2m.divide 6 1 2 3 11 = Ok 6.
Proof. apply (divide_after_multiply 3 11 6 3 gf8_descriptor); lia. Defined.

(** X16: the logarithm of 1 is 0 to every base, and the logarithm of an
    element other than 0 and 1 to itself is 1. *)
Theorem log_of_one_and_base m p b c :
  1 <= m -> 2 ^ m <= p < 2 ^ (m + 1) -> 0 <= b < 2 ^ m -> 2 <= c < 2 ^ m ->
  GF2m.log 1 b 2 m p = Ok 0 /\ GF2m.log c c 2 m p = Ok 1.
Proof.
  intros Hm Hp Hb Hc. pose proof (order_ge_2 m Hm) as Hq. split.
  - destruct (log_spec m p Hm Hp 1 b ltac:(lia) Hb)
      as [i [Hlog [Hi [[Hpow Hmin]|[_ Hnone]]]]].
    + rewrite Hlog. destruct i as [|i]; [reflexivity|exfalso].
      apply (Hmin 0%nat); [lia|reflexivity].
    + exfalso. apply (Hnone 0%nat); [lia|reflexivity].
  - assert (H1 : repeated_multiply m p c 1 = c) by (apply rm_1; (lia || assumption)).
    destruct (log_spec m p Hm Hp c c ltac:(lia) ltac:(lia))
      as [i [Hlog [Hi [[Hpow Hmin]|[_ Hnone]]]]].
    + rewrite Hlog. destruct i as [|[|i]].
      * cbn [repeated_multiply iter_mul] in Hpow. lia.
      * reflexivity.
      * exfalso. apply (Hmin 1%nat); [lia|assumption].
    + exfalso. apply (Hnone 1%nat); [lia|assumption].
Qed.

Lemma log_of_one_and_base_witness :
  GF2m.log 1 6 2 3 11 = Ok 0 /\ GF2m.log 5 5 2 3 11 = Ok 1.
Proof. apply (log_of_one_and_base 3 11 6 5); lia. Defined.

(** X17: to a primitive base the logarithm turns products into sums of
    exponents modulo [order - 1]. *)
Theorem log_of_product m p b x y :
  descriptor m p -> primitive_element m p b ->
  0 < x < 2 ^ m -> 0 < y < 2 ^ m ->
  exists i j,
    GF2m.log x b 2 m p = Ok i /\ GF2m.log y b 2 m p = Ok j /\
    GF2m.log (GF2m.multiply x y 2 m p) b 2 m p
    = Ok ((i + j) mod (2 ^ m - 1)).
Proof.
  intros [Hm [Hp Hirr]] Hprim Hx Hy.
  pose proof (order_ge_2 m Hm) as Hq.
  assert (Hb : 0 < b < 2 ^ m) by (destruct Hprim; assumption).
  destruct (log_least m p Hm Hp Hirr b Hprim x Hx) as [i [Hlx [Hi [Hpx _]]]].
  destruct (log_least m p Hm Hp Hirr b Hprim y Hy) as [j [Hly [Hj [Hpy _]]]].
  exists (Z.of_nat i), (Z.of_nat j).
  split; [assumption|]. split; [assumption|].
  change (GF2m.multiply x y 2 m p) with (fmul m p x y).
  rewrite <- Hpx, <- Hpy, <- repeated_multiply_add by (lia || assumption).
  rewrite (rm_mod m p Hm Hp Hirr b (i + j)) by assumption.
  assert (Hn : (Z.to_nat (2 ^ m - 1) <> 0)%nat) by lia.
  pose proof (Nat.mod_upper_bound (i + j) _ Hn) as Hbound.
  rewrite (log_repeated_multiply m p Hm Hp Hirr b Hprim) by lia.
  f_equal. rewrite Nat2Z.inj_mod, Nat2Z.inj_add, Z2Nat.id by lia.
  reflexivity.
Qed.

Lemma log_of_product_witness :
  exists i j,
    GF2m.log 6 2 2 3 11 = Ok i /\ GF2m.log 7 2 2 3 11 = Ok j /\
    GF2m.log (GF2m.multiply 6 7 2 3 11) 2 2 3 11
    = Ok ((i + j) mod (2 ^ 3 - 1)).
Proof.
  apply (log_of_product 3 11 2 6 7 gf8_descriptor gf8_primitive); lia.
Defined.

(** X18: the three ways to invert agree: [power a (-1)], [reciprocal a] and
    [power a (order - 2)] return the same value for a nonzero [a]. *)
Theorem power_minus_one_is_reciprocal m p a :
  1 <= m -> 2 ^ m <= p < 2 ^ (m + 1) -> 0 < a < 2 ^ m ->
  GF2m.power a (-1) 2 m p = GF2m.reciprocal a 2 m p /\
  GF2m.power a (2 ^ m - 2) 2 m p = GF2m.reciprocal a 2 m p.
Proof.
  intros Hm Hp Ha. pose proof (order_ge_2 m Hm) as Hq.
  rewrite reciprocal_power, power_neg, power_nonneg by (lia || assumption).
  split; [|reflexivity]. f_equal.
  change (Z.to_nat (- -1)) with 1%nat.
  apply rm_1; try assumption. apply rm_closed; (lia || assumption).
Qed.

Lemma power_minus_one_is_reciprocal_witness :
  GF2m.power 3 (-1) 2 3 11 = GF2m.reciprocal 3 2 3 11 /\
  GF2m.power 3 (2 ^ 3 - 2) 2 3 11 = GF2m.reciprocal 3 2 3 11.
Proof. apply (power_minus_one_is_reciprocal 3 11 3); lia. Defined.

Lemma sqrt_repeated_multiply m p a :
  1 <= m -> 2 ^ m <= p < 2 ^ (m + 1) -> 0 <= a < 2 ^ m ->
  GF2m.sqrt a 2 m p = Ok (repeated_multiply m p a (2 ^ Z.to_nat (m - 1))).
Proof.
  intros Hm Hp Ha.
  assert (Hpos : 0 < 2 ^ (m - 1)) by (apply Z.pow_pos_nonneg; lia).
  unfold GF2m.sqrt, GF2m._sqrt.
  change (GF2m.power a (2 ^ (m - 1)) 2 m p
          = Ok (repeated_multiply m p a (2 ^ Z.to_nat (m - 1)))).
  rewrite power_nonneg, to_nat_pow2 by (lia || assumption). reflexivity.
Qed.

(** X19: the square root undoes squaring, and square roots are unique:
    whenever [multiply x x] is [a], [sqrt a] returns [x]. *)
Theorem sqrt_of_square m p a x :
  descriptor m p -> 0 <= a < 2 ^ m -> 0 <= x < 2 ^ m ->
  GF2m.sqrt (GF2m.multiply a a 2 m p) 2 m p = Ok a /\
  (GF2m.multiply x x 2 m p = a -> GF2m.sqrt a 2 m p = Ok x).
Proof.
  intros [Hm [Hp Hirr]] Ha Hx.
  assert (Hsq : forall y, 0 <= y < 2 ^ m ->
            GF2m.sqrt (GF2m.multiply y y 2 m p) 2 m p = Ok y).
  { intros y Hy.
    change (GF2m.multiply y y 2 m p) with (fmul m p y y).
    rewrite sqrt_repeated_multiply
      by (try apply fmul_closed; (lia || assumption)).
    rewrite rm_square by assumption. f_equal.
    rewrite <- (repeated_multiply_order m p Hm Hp Hirr y Hy) at 2.
    f_equal. rewrite to_nat_pow2 by lia.
    replace (Z.to_nat m) with (S (Z.to_nat (m - 1))) by lia.
    rewrite Nat.pow_succ_r'. reflexivity. }
  split; [apply Hsq; assumption|].
  intros <-. apply Hsq. assumption.
Qed.

Lemma sqrt_of_square_witness :
  GF2m.sqrt (GF2m.multiply 5 5 2 3 11) 2 3 11 = Ok 5 /\
  (GF2m.multiply 3 3 2 3 11 = 5 -> GF2m.sqrt 5 2 3 11 = Ok 3).
Proof. apply (sqrt_of_square 3 11 5 3 gf8_descriptor); lia. Defined.

(** X20: the square root of a product is the product of the square roots
    and the square root of a sum is the sum of the square roots. *)
Theorem sqrt_homomorphism m p a b :
  1 <= m -> 2 ^ m <= p < 2 ^ (m + 1) -> 0 <= a < 2 ^ m -> 0 <= b < 2 ^ m ->
  exists sa sb,
    GF2m.sqrt a 2 m p = Ok sa /\ GF2m.sqrt b 2 m p = Ok sb /\
    GF2m.sqrt (GF2m.multiply a b 2 m p) 2 m p
    = Ok (GF2m.multiply sa sb 2 m p) /\
    GF2m.sqrt (GF2m._add_calculate a b 2 m p) 2 m p
    = Ok (GF2m._add_calculate sa sb 2 m p).
Proof.
  intros Hm Hp Ha Hb.
  exists (repeated_multiply m p a (2 ^ Z.to_nat (m - 1))),
         (repeated_multiply m p b (2 ^ Z.to_nat (m - 1))).
  pose proof (fmul_closed m p Hm Hp a b Ha Hb).
  pose proof (lxor_bound m a b ltac:(lia) Ha Hb).
  unfold GF2m._add_calculate.
  rewrite !sqrt_repeated_multiply by assumption.
  split; [reflexivity|]. split; [reflexivity|]. split.
  - change (GF2m.multiply ?u ?v 2 m p) with (fmul m p u v).
    rewrite rm_base by assumption. reflexivity.
  - rewrite rm_pow2_lxor by assumption. reflexivity.
Qed.

Lemma sqrt_homomorphism_witness :
  exists sa sb,
    GF2m.sqrt 3 2 3 11 = Ok sa /\ GF2m.sqrt 6 2 3 11 = Ok sb /\
    GF2m.sqrt (GF2m.multiply 3 6 2 3 11) 2 3 11
    = Ok (GF2m.multiply sa sb 2 3 11) /\
    GF2m.sqrt (GF2m._add_calculate 3 6 2 3 11) 2 3 11
    = Ok (GF2m._add_calculate sa sb 2 3 11).
Proof. apply (sqrt_homomorphism 3 11 3 6); lia. Defined.

(** X21: squaring is additive: the square of a sum is the sum of the
    squares. *)
Theorem square_of_sum m p a b :
  1 <= m -> 2 ^ m <= p < 2 ^ (m + 1) -> 0 <= a < 2 ^ m -> 0 <= b < 2 ^ m ->
  GF2m.multiply (GF2m._add_calculate a b 2 m p) (GF2m._add_calculate a b 2 m p)
    2 m p
  = GF2m._add_calculate (GF2m.multiply a a 2 m p) (GF2m.multiply b b 2 m p)
      2 m p.
Proof.
  intros Hm Hp Ha Hb. unfold GF2m._add_calculate.
  apply (fmul_square_lxor m p Hm Hp); assumption.
Qed.

Lemma square_of_sum_witness :
  GF2m.multiply (GF2m._add_calculate 3 6 2 3 11) (GF2m._add_calculate 3 6 2 3 11)
    2 3 11
  = GF2m._add_calculate (GF2m.multiply 3 3 2 3 11) (GF2m.multiply 6 6 2 3 11)
      2 3 11.
Proof. apply (square_of_sum 3 11 3 6); lia. Defined.

(** X22: 0 to a positive exponent is 0, and 1 to every exponent, negative
    ones included, is 1. *)
Theorem power_of_zero_and_one m p e1 e :
  1 <= m -> 2 ^ m <= p < 2 ^ (m + 1) -> 0 < e1 ->
  GF2m.power 0 e1 2 m p = Ok 0 /\ GF2m.power 1 e 2 m p = Ok 1.
Proof.
  intros Hm Hp He1. pose proof (order_ge_2 m Hm) as Hq. split.
  - rewrite power_nonneg by (lia || assumption).
    replace (Z.to_nat e1) with (S (Z.to_nat (e1 - 1))) by lia.
    rewrite rm_zero by assumption. reflexivity.
  - destruct (Z_lt_le_dec e 0) as [Hneg|Hnn].
    + rewrite power_neg by (lia || assumption).
      rewrite !rm_one by assumption. reflexivity.
    + rewrite power_nonneg by (lia || assumption).
      rewrite rm_one by assumption. reflexivity.
Qed.

Lemma power_of_zero_and_one_witness :
  GF2m.power 0 4 2 3 11 = Ok 0 /\ GF2m.power 1 (-3) 2 3 11 = Ok 1.
Proof. apply (power_of_zero_and_one 3 11 4 (-3)); lia. Defined.

(** ** Generator and parity-check matrices *)

Import Linear.

Lemma list_eqb_eq {A : Type} (eqb : A -> A -> bool) :
  (forall x y, eqb x y = true <-> x = y) ->
  forall l1 l2, list_eqb eqb l1 l2 = true <-> l1 = l2.
Proof.
  intros Heqb. induction l1 as [|x l1 IH]; intros [|y l2]; simpl;
    try (split; (reflexivity || discriminate)).
  rewrite andb_true_iff, Heqb, IH. split.
  - intros [-> ->]. reflexivity.
  - intros H. injection H as -> ->. split; reflexivity.
Qed.

Lemma array_equal_eq A B : array_equal A B = true <-> A = B.
Proof.
  unfold array_equal. rewrite !andb_true_iff, !Nat.eqb_eq.
  rewrite (list_eqb_eq (list_eqb Z.eqb) (list_eqb_eq Z.eqb Z.eqb_eq)).
  destruct A as [r c d], B as [r' c' d']; simpl. split.
  - intros [[-> ->] ->]. reflexivity.
  - intros H. injection H as -> -> ->. auto.
Qed.

Lemma map_nth_seq {A : Type} (l : list A) d :
  map (fun j => nth j l d) (seq 0 (length l)) = l.
Proof.
  induction l as [|x l IH]; [reflexivity|].
  cbn [length seq map nth]. f_equal.
  rewrite <- seq_shift, map_map. exact IH.
Qed.

Lemma nth_map_seq {A : Type} (g : nat -> A) n i d :
  (i < n)%nat -> nth i (map g (seq 0 n)) d = g i.
Proof.
  intros Hi. rewrite (nth_indep _ d (g 0%nat)) by (rewrite length_map, length_seq; lia).
  rewrite map_nth, seq_nth by assumption. reflexivity.
Qed.

Lemma slice_prefix k l :
  (k <= length l)%nat -> slice 0 (Some (Z.of_nat k)) l = firstn k l.
Proof.
  intros Hk. unfold slice, slice_bounds, slice_index.
  destruct (Z.ltb_spec 0 0); [lia|].
  destruct (Z.ltb_spec (Z.of_nat k) 0); [lia|].
  rewrite Nat2Z.id. change (Z.to_nat 0) with 0%nat.
  rewrite Nat.min_0_l, Nat.min_l, Nat.sub_0_r by assumption. reflexivity.
Qed.

Lemma slice_suffix k l : slice (Z.of_nat k) None l = skipn k l.
Proof.
  unfold slice, slice_bounds, slice_index.
  destruct (Z.ltb_spec (Z.of_nat k) 0); [lia|]. rewrite Nat2Z.id.
  rewrite firstn_all2 by (rewrite length_skipn; lia).
  destruct (Nat.le_gt_cases k (length l)) as [Hle|Hgt].
  - rewrite Nat.min_l by assumption. reflexivity.
  - rewrite Nat.min_r, !skipn_all2 by lia. reflexivity.
Qed.

Lemma rows_ext (l1 l2 : list (list Z)) r c :
  length l1 = r -> length l2 = r ->
  Forall (fun u => length u = c) l1 -> Forall (fun u => length u = c) l2 ->
  (forall i j, (i < r)%nat -> (j < c)%nat ->
     nth j (nth i l1 []) 0 = nth j (nth i l2 []) 0) ->
  l1 = l2.
Proof.
  intros H1 H2 F1 F2 Hent.
  apply (nth_ext l1 l2 [] []); [congruence|].
  intros i Hi. rewrite Forall_forall in F1, F2.
  assert (Hl1 : length (nth i l1 []) = c) by (apply F1, nth_In; lia).
  assert (Hl2 : length (nth i l2 []) = c) by (apply F2, nth_In; lia).
  apply (nth_ext _ _ 0 0); [congruence|].
  intros j Hj. apply Hent; lia.
Qed.

(** Two well-formed arrays of the same shape with the same elements are
    the same array. *)
Lemma ndarray_ext A B :
  well_formed A -> well_formed B ->
  nrows A = nrows B -> ncols A = ncols B ->
  (forall i j, (i < nrows A)%nat -> (j < ncols A)%nat ->
     nth j (nth i (rows A) []) 0 = nth j (nth i (rows B) []) 0) ->
  A = B.
Proof.
  destruct A as [r c d], B as [r' c' d']. unfold well_formed. simpl.
  intros [H1 F1] [H2 F2] <- <- Hent. f_equal.
  apply (rows_ext d d' r c); assumption.
Qed.

Lemma row_length A i :
  well_formed A -> (i < nrows A)%nat -> length (nth i (rows A) []) = ncols A.
Proof.
  intros [Hlen Hrows] Hi. rewrite Forall_forall in Hrows.
  apply Hrows, nth_In. lia.
Qed.

Lemma well_formed_eye k : well_formed (eye k).
Proof.
  split; simpl.
  - rewrite length_map, length_seq. reflexivity.
  - apply Forall_map, Forall_forall. intros i _.
    rewrite length_map, length_seq. reflexivity.
Qed.

Lemma entry_eye k i j :
  (i < k)%nat -> (j < k)%nat ->
  entry (eye k) i j = if (i =? j)%nat then 1 else 0.
Proof.
  intros Hi Hj. simpl. rewrite (nth_map_seq _ k i) by assumption.
  rewrite (nth_map_seq _ k j) by assumption. reflexivity.
Qed.

Lemma well_formed_transpose A : well_formed A -> well_formed (transpose A).
Proof.
  intros [Hlen Hrows]. split; simpl.
  - rewrite length_map, length_seq. reflexivity.
  - apply Forall_map, Forall_forall. intros j _.
    rewrite length_map. assumption.
Qed.

Lemma entry_transpose A i j :
  (j < ncols A)%nat -> entry (transpose A) j i = entry A i j.
Proof.
  intros Hj. simpl. rewrite (nth_map_seq _ (ncols A) j) by assumption.
  destruct (Nat.lt_ge_cases i (length (rows A))) as [Hi|Hi].
  - rewrite (nth_indep _ 0 ((fun r : list Z => nth j r 0) []))
      by (rewrite length_map; lia).
    exact (map_nth (fun r : list Z => nth j r 0) (rows A) [] i).
  - rewrite (nth_overflow (map _ _)) by (rewrite length_map; lia).
    rewrite (nth_overflow (rows A)) by lia.
    destruct j; reflexivity.
Qed.

Lemma well_formed_negate negative A :
  well_formed A -> well_formed (negate negative A).
Proof.
  intros [Hlen Hrows]. split; simpl.
  - rewrite length_map. assumption.
  - apply Forall_map. revert Hrows. apply Forall_impl.
    intros r Hr. rewrite length_map. assumption.
Qed.

Lemma entry_negate negative A i j :
  well_formed A -> (i < nrows A)%nat -> (j < ncols A)%nat ->
  entry (negate negative A) i j = negative (entry A i j).
Proof.
  intros HA Hi Hj. pose proof (row_length A i HA Hi) as Hlen.
  destruct HA as [Hr _]. simpl.
  rewrite (nth_indep _ [] (map negative [])) by (rewrite length_map; lia).
  rewrite map_nth.
  rewrite (nth_indep _ 0 (negative 0)) by (rewrite length_map; lia).
  apply map_nth.
Qed.

Lemma slice_columns_suffix k A :
  slice_columns (Z.of_nat k) None A
  = {| nrows := nrows A; ncols := ncols A - k; rows := map (skipn k) (rows A) |}.
Proof.
  unfold slice_columns, slice_bounds, slice_index.
  destruct (Z.ltb_spec (Z.of_nat k) 0); [lia|]. rewrite Nat2Z.id.
  f_equal; [lia|]. apply map_ext. intros r. apply slice_suffix.
Qed.

Lemma slice_columns_prefix k A :
  well_formed A -> (k <= ncols A)%nat ->
  slice_columns 0 (Some (Z.of_nat k)) A
  = {| nrows := nrows A; ncols := k; rows := map (firstn k) (rows A) |}.
Proof.
  intros [_ Hrows] Hk. unfold slice_columns, slice_bounds, slice_index.
  destruct (Z.ltb_spec 0 0); [lia|].
  destruct (Z.ltb_spec (Z.of_nat k) 0); [lia|]. rewrite Nat2Z.id.
  f_equal; [change (Z.to_nat 0) with 0%nat; lia|].
  apply map_ext_in. intros r Hr. rewrite Forall_forall in Hrows.
  apply slice_prefix. rewrite (Hrows r Hr). assumption.
Qed.

Lemma well_formed_hstack A B C :
  well_formed A -> well_formed B -> hstack A B = Return C -> well_formed C.
Proof.
  intros [HlA HrA] [HlB HrB]. unfold hstack.
  destruct (Nat.eqb_spec (nrows A) (nrows B)) as [Heq|]; [|discriminate].
  intros H. injection H as <-. split; simpl.
  - rewrite length_map, length_combine. lia.
  - apply Forall_map, Forall_forall. intros [u v] Huv. simpl.
    rewrite Forall_forall in HrA, HrB.
    rewrite length_app, (HrA u), (HrB v);
      eauto using in_combine_l, in_combine_r.
Qed.

Lemma entry_hstack A B C i j :
  well_formed A -> well_formed B -> hstack A B = Return C ->
  (i < nrows A)%nat ->
  entry C i j = if (j <? ncols A)%nat then entry A i j
                else entry B i (j - ncols A).
Proof.
  intros HA HB. unfold hstack.
  destruct (Nat.eqb_spec (nrows A) (nrows B)) as [Heq|]; [|discriminate].
  intros H Hi. injection H as <-. simpl.
  pose proof (row_length A i HA Hi) as HlenA.
  destruct HA as [HlA _], HB as [HlB _].
  change (@nil Z) with ((fun uv : list Z * list Z => fst uv ++ snd uv) ([], []))
    at 1.
  rewrite map_nth, combine_nth by lia. simpl.
  destruct (Nat.ltb_spec j (ncols A)).
  - apply app_nth1. lia.
  - rewrite app_nth2 by lia. rewrite HlenA. reflexivity.
Qed.

Lemma well_formed_suffix k A :
  well_formed A -> well_formed (slice_columns (Z.of_nat k) None A).
Proof.
  intros [Hlen Hrows]. rewrite slice_columns_suffix. split; simpl.
  - rewrite length_map. assumption.
  - apply Forall_map. revert Hrows. apply Forall_impl.
    intros r Hr. rewrite length_skipn, Hr. reflexivity.
Qed.

Lemma entry_suffix k A i j :
  well_formed A -> (i < nrows A)%nat ->
  entry (slice_columns (Z.of_nat k) None A) i j = entry A i (k + j).
Proof.
  intros [Hlen _] Hi. rewrite slice_columns_suffix. simpl.
  rewrite (nth_indep _ [] (skipn k [])) by (rewrite length_map; lia).
  rewrite map_nth. apply nth_skipn.
Qed.

Lemma well_formed_prefix k A :
  well_formed A -> (k <= ncols A)%nat ->
  well_formed (slice_columns 0 (Some (Z.of_nat k)) A).
Proof.
  intros HA Hk. rewrite slice_columns_prefix by assumption.
  destruct HA as [Hlen Hrows]. split; simpl.
  - rewrite length_map. assumption.
  - apply Forall_map. revert Hrows. apply Forall_impl.
    intros r Hr. rewrite length_firstn, Hr. lia.
Qed.

Lemma entry_prefix k A i j :
  well_formed A -> (k <= ncols A)%nat -> (i < nrows A)%nat -> (j < k)%nat ->
  entry (slice_columns 0 (Some (Z.of_nat k)) A) i j = entry A i j.
Proof.
  intros HA Hk Hi Hj. rewrite slice_columns_prefix by assumption.
  destruct HA as [Hlen _]. simpl.
  rewrite (nth_indep _ [] (firstn k [])) by (rewrite length_map; lia).
  rewrite map_nth, nth_firstn.
  destruct (Nat.ltb_spec j k); [reflexivity|lia].
Qed.

(** The number of columns of [A[:, 0:k]]. *)
Lemma ncols_prefix k A :
  ncols (slice_columns 0 (Some (Z.of_nat k)) A) = Nat.min k (ncols A).
Proof.
  unfold slice_columns, slice_bounds, slice_index.
  destruct (Z.ltb_spec 0 0); [lia|].
  destruct (Z.ltb_spec (Z.of_nat k) 0); [lia|]. rewrite Nat2Z.id.
  simpl. change (Z.to_nat 0) with 0%nat. lia.
Qed.

(** The number of columns of [A[:, k:]], also for a negative [k]. *)
Lemma ncols_from k A :
  ncols (slice_columns k None A)
  = (ncols A - (if (k <? 0)%Z
                then Z.to_nat (Z.max 0 (k + Z.of_nat (ncols A))%Z)
                else Nat.min (Z.to_nat k) (ncols A)))%nat.
Proof.
  unfold slice_columns, slice_bounds, slice_index.
  destruct (k <? 0); reflexivity.
Qed.

Section Conversions.

Variable negative : Z -> Z.
Variable Identity : Z -> raised ndarray.

(** [Identity] builds the identity matrix of the field. *)
Hypothesis Identity_eye :
  forall z, 0 <= z -> Identity z = Return (eye (Z.to_nat z)).

(** What [generator_to_parity_check_matrix] returns on [G = [I | P]]:
    [H = [-P^T | I]], element by element. *)
Lemma generator_structure G :
  well_formed G ->
  array_equal (slice_columns 0 (Some (Z.of_nat (nrows G))) G) (eye (nrows G))
  = true ->
  (nrows G <= ncols G)%nat /\
  exists H,
    generator_to_parity_check_matrix negative Identity G = Return H /\
    well_formed H /\
    nrows H = (ncols G - nrows G)%nat /\ ncols H = ncols G /\
    (forall j i, (j < ncols G - nrows G)%nat -> (i < nrows G)%nat ->
       entry H j i = negative (entry G i (nrows G + j))) /\
    (forall j c, (j < ncols G - nrows G)%nat ->
       (nrows G <= c < ncols G)%nat ->
       entry H j c = if (j =? c - nrows G)%nat then 1 else 0).
Proof.
  intros HG Hsys.
  assert (Hkn : (nrows G <= ncols G)%nat).
  { apply array_equal_eq in Hsys. apply (f_equal ncols) in Hsys.
    rewrite ncols_prefix in Hsys. simpl in Hsys. lia. }
  split; [assumption|].
  unfold generator_to_parity_check_matrix. rewrite Hsys. cbn [negb].
  rewrite Identity_eye by lia.
  replace (Z.to_nat (Z.of_nat (ncols G) - Z.of_nat (nrows G)))
    with (ncols G - nrows G)%nat by lia.
  set (P := slice_columns (Z.of_nat (nrows G)) None G).
  assert (HP : well_formed P) by (apply well_formed_suffix; assumption).
  assert (HPr : nrows P = nrows G)
    by (unfold P; rewrite slice_columns_suffix; reflexivity).
  assert (HPc : ncols P = (ncols G - nrows G)%nat)
    by (unfold P; rewrite slice_columns_suffix; reflexivity).
  set (N := negate negative (transpose P)).
  assert (HN : well_formed N)
    by (apply well_formed_negate, well_formed_transpose; assumption).
  assert (HNr : nrows N = (ncols G - nrows G)%nat) by exact HPc.
  assert (HNc : ncols N = nrows G) by exact HPr.
  pose proof (well_formed_eye (ncols G - nrows G)) as HE.
  destruct (hstack N (eye (ncols G - nrows G))) as [H|] eqn:Hh.
  2: { unfold hstack in Hh. rewrite HNr in Hh. simpl in Hh.
       rewrite Nat.eqb_refl in Hh. discriminate. }
  exists H. split; [reflexivity|].
  split; [exact (well_formed_hstack _ _ _ HN HE Hh)|].
  assert (Hshape : nrows H = nrows N /\
                   ncols H = (ncols N + (ncols G - nrows G))%nat).
  { unfold hstack in Hh.
    destruct (nrows N =? nrows (eye (ncols G - nrows G)))%nat;
      [|discriminate].
    injection Hh as <-. split; reflexivity. }
  split; [lia|]. split; [lia|]. split.
  - intros j i Hj Hi.
    rewrite (entry_hstack N _ H j i HN HE Hh) by lia.
    rewrite HNc. destruct (Nat.ltb_spec i (nrows G)); [|lia].
    unfold N. rewrite (entry_negate negative (transpose P) j i)
      by (first [apply well_formed_transpose; assumption
                |cbn [transpose nrows ncols]; lia]).
    rewrite entry_transpose by lia.
    unfold P. rewrite entry_suffix by (assumption || lia). reflexivity.
  - intros j c Hj Hc.
    rewrite (entry_hstack N _ H j c HN HE Hh) by lia.
    rewrite HNc. destruct (Nat.ltb_spec c (nrows G)); [lia|].
    apply entry_eye; lia.
Qed.

(** What [parity_check_to_generator_matrix] returns on [H = [A | I]]:
    [G = [I | -A^T]], element by element. *)
Lemma parity_structure H :
  well_formed H ->
  array_equal
    (slice_columns (Z.of_nat (ncols H) - Z.of_nat (nrows H)) None H)
    (eye (Z.to_nat (Z.of_nat (ncols H)
                    - (Z.of_nat (ncols H) - Z.of_nat (nrows H)))))
  = true ->
  (nrows H <= ncols H)%nat /\
  exists G,
    parity_check_to_generator_matrix negative Identity H = Return G /\
    well_formed G /\
    nrows G = (ncols H - nrows H)%nat /\ ncols G = ncols H /\
    (forall i c, (i < ncols H - nrows H)%nat -> (c < ncols H - nrows H)%nat ->
       entry G i c = if (i =? c)%nat then 1 else 0) /\
    (forall i j, (i < ncols H - nrows H)%nat -> (j < nrows H)%nat ->
       entry G i (ncols H - nrows H + j) = negative (entry H j i)).
Proof.
  intros HH Hsys.
  assert (Hkn : (nrows H <= ncols H)%nat).
  { apply array_equal_eq in Hsys. apply (f_equal ncols) in Hsys.
    rewrite ncols_from in Hsys. simpl in Hsys.
    destruct (Z.ltb_spec (Z.of_nat (ncols H) - Z.of_nat (nrows H)) 0); lia. }
  split; [assumption|].
  unfold parity_check_to_generator_matrix. rewrite Hsys. cbn [negb].
  rewrite Identity_eye by lia.
  replace (Z.of_nat (ncols H) - Z.of_nat (nrows H))
    with (Z.of_nat (ncols H - nrows H)) by lia.
  rewrite Nat2Z.id.
  set (k := (ncols H - nrows H)%nat).
  set (A := slice_columns 0 (Some (Z.of_nat k)) H).
  assert (HA : well_formed A) by (apply well_formed_prefix; (assumption || lia)).
  assert (HAr : nrows A = nrows H)
    by (unfold A; rewrite slice_columns_prefix by (assumption || lia);
        reflexivity).
  assert (HAc : ncols A = k)
    by (unfold A; rewrite slice_columns_prefix by (assumption || lia);
        reflexivity).
  set (P := negate negative (transpose A)).
  assert (HP : well_formed P)
    by (apply well_formed_negate, well_formed_transpose; assumption).
  assert (HPr : nrows P = k) by exact HAc.
  assert (HPc : ncols P = nrows H) by exact HAr.
  pose proof (well_formed_eye k) as HE.
  destruct (hstack (eye k) P) as [G|] eqn:Hh.
  2: { unfold hstack in Hh. rewrite HPr in Hh. simpl in Hh.
       rewrite Nat.eqb_refl in Hh. discriminate. }
  exists G. split; [reflexivity|].
  split; [exact (well_formed_hstack _ _ _ HE HP Hh)|].
  assert (Hshape : nrows G = k /\ ncols G = (k + ncols P)%nat).
  { unfold hstack in Hh.
    destruct (nrows (eye k) =? nrows P)%nat; [|discriminate].
    injection Hh as <-. split; reflexivity. }
  split; [lia|]. split; [lia|]. split.
  - intros i c Hi Hc.
    rewrite (entry_hstack (eye k) P G i c HE HP Hh) by (simpl; lia).
    change (ncols (eye k)) with k.
    destruct (Nat.ltb_spec c k); [|lia].
    apply entry_eye; lia.
  - intros i j Hi Hj.
    rewrite (entry_hstack (eye k) P G i (k + j) HE HP Hh) by (simpl; lia).
    change (ncols (eye k)) with k.
    destruct (Nat.ltb_spec (k + j) k); [lia|].
    replace (k + j - k)%nat with j by lia.
    unfold P. rewrite (entry_negate negative (transpose A) i j)
      by (first [apply well_formed_transpose; assumption
                |cbn [transpose nrows ncols]; lia]).
    rewrite entry_transpose by lia.
    unfold A. rewrite entry_prefix by (assumption || lia). reflexivity.
Qed.

End Conversions.

(** X23: an array with more rows than columns is rejected with
    [ValueError] by both conversions, whatever the field is: its left (or
    right) block cannot have the shape of the identity matrix. *)
Theorem more_rows_than_columns_rejected negative Identity A :
  (ncols A < nrows A)%nat ->
  generator_to_parity_check_matrix negative Identity A = ValueError /\
  parity_check_to_generator_matrix negative Identity A = ValueError.
Proof.
  intros Hlt. split.
  - unfold generator_to_parity_check_matrix.
    destruct (array_equal _ _) eqn:E; [exfalso|reflexivity].
    apply array_equal_eq in E. apply (f_equal ncols) in E.
    rewrite ncols_prefix in E. simpl in E. lia.
  - unfold parity_check_to_generator_matrix.
    destruct (array_equal _ _) eqn:E; [exfalso|reflexivity].
    apply array_equal_eq in E. apply (f_equal ncols) in E.
    rewrite ncols_from in E. simpl in E.
    destruct (Z.ltb_spec (Z.of_nat (ncols A) - Z.of_nat (nrows A)) 0); lia.
Qed.

Lemma more_rows_than_columns_rejected_witness :
  generator_to_parity_check_matrix (fun x => x)
    (fun z => Return (eye (Z.to_nat z)))
    {| nrows := 2; ncols := 1; rows := [[1]; [0]] |} = ValueError /\
  parity_check_to_generator_matrix (fun x => x)
    (fun z => Return (eye (Z.to_nat z)))
    {| nrows := 2; ncols := 1; rows := [[1]; [0]] |} = ValueError.
Proof.
  apply (more_rows_than_columns_rejected (fun x => x)
           (fun z => Return (eye (Z.to_nat z)))
           {| nrows := 2; ncols := 1; rows := [[1]; [0]] |}).
  simpl. lia.
Defined.

(** The generator matrix of the [7, 4] Hamming code. *)
Lemma hamming_well_formed :
  well_formed
    {| nrows := 4; ncols := 7;
       rows := [[1; 0; 0; 0; 1; 1; 0]; [0; 1; 0; 0; 1; 0; 1];
                [0; 0; 1; 0; 0; 1; 1]; [0; 0; 0; 1; 1; 1; 1]] |}.
Proof. split; [reflexivity|repeat constructor]. Qed.

Lemma hamming_parity_well_formed :
  well_formed
    {| nrows := 3; ncols := 7;
       rows := [[1; 1; 0; 1; 1; 0; 0]; [1; 0; 1; 1; 0; 1; 0];
                [0; 1; 1; 1; 0; 0; 1]] |}.
Proof. split; [reflexivity|repeat constructor]. Qed.

(** X24: on a well-formed [(k, n)] array [G = [I | P]],
    [generator_to_parity_check_matrix] raises nothing and returns a
    well-formed [(n - k, n)] array [H = [-P^T | I]]: [H[j][i] = -G[i][k + j]]
    on the left and the identity on the right; and [k <= n]. *)
Theorem generator_to_parity_check_form negative Identity G :
  (forall z, 0 <= z -> Identity z = Return (eye (Z.to_nat z))) ->
  well_formed G ->
  array_equal (slice_columns 0 (Some (Z.of_nat (nrows G))) G) (eye (nrows G))
  = true ->
  (nrows G <= ncols G)%nat /\
  exists H,
    generator_to_parity_check_matrix negative Identity G = Return H /\
    well_formed H /\
    nrows H = (ncols G - nrows G)%nat /\ ncols H = ncols G /\
    (forall j i, (j < ncols G - nrows G)%nat -> (i < nrows G)%nat ->
       nth i (nth j (rows H) []) 0
       = negative (nth (nrows G + j) (nth i (rows G) []) 0)) /\
    (forall j c, (j < ncols G - nrows G)%nat ->
       (nrows G <= c < ncols G)%nat ->
       nth c (nth j (rows H) []) 0 = if (j =? c - nrows G)%nat then 1 else 0).
Proof. intros HI HG Hsys. apply generator_structure; assumption. Qed.

Lemma generator_to_parity_check_form_witness :
  let G := {| nrows := 4; ncols := 7;
              rows := [[1; 0; 0; 0; 1; 1; 0]; [0; 1; 0; 0; 1; 0; 1];
                       [0; 0; 1; 0; 0; 1; 1]; [0; 0; 0; 1; 1; 1; 1]] |} in
  let negative := fun x : Z => x in
  let Identity := fun z => Return (eye (Z.to_nat z)) in
  (nrows G <= ncols G)%nat /\
  exists H,
    generator_to_parity_check_matrix negative Identity G = Return H /\
    well_formed H /\
    nrows H = (ncols G - nrows G)%nat /\ ncols H = ncols G /\
    (forall j i, (j < ncols G - nrows G)%nat -> (i < nrows G)%nat ->
       nth i (nth j (rows H) []) 0
       = negative (nth (nrows G + j) (nth i (rows G) []) 0)) /\
    (forall j c, (j < ncols G - nrows G)%nat ->
       (nrows G <= c < ncols G)%nat ->
       nth c (nth j (rows H) []) 0 = if (j =? c - nrows G)%nat then 1 else 0).
Proof.
  intros G negative Identity.
  apply (generator_to_parity_check_form negative Identity G).
  - intros z _. reflexivity.
  - exact hamming_well_formed.
  - vm_compute. reflexivity.
Defined.

(** X25: on a well-formed [(n - k, n)] array [H = [A | I]],
    [parity_check_to_generator_matrix] raises nothing and returns a
    well-formed [(k, n)] array [G = [I | -A^T]]; in particular the array has
    at most as many rows as columns. *)
Theorem parity_check_to_generator_form negative Identity H :
  (forall z, 0 <= z -> Identity z = Return (eye (Z.to_nat z))) ->
  well_formed H ->
  array_equal
    (slice_columns (Z.of_nat (ncols H) - Z.of_nat (nrows H)) None H)
    (eye (Z.to_nat (Z.of_nat (ncols H)
                    - (Z.of_nat (ncols H) - Z.of_nat (nrows H)))))
  = true ->
  (nrows H <= ncols H)%nat /\
  exists G,
    parity_check_to_generator_matrix negative Identity H = Return G /\
    well_formed G /\
    nrows G = (ncols H - nrows H)%nat /\ ncols G = ncols H /\
    (forall i c, (i < ncols H - nrows H)%nat -> (c < ncols H - nrows H)%nat ->
       nth c (nth i (rows G) []) 0 = if (i =? c)%nat then 1 else 0) /\
    (forall i j, (i < ncols H - nrows H)%nat -> (j < nrows H)%nat ->
       nth (ncols H - nrows H + j) (nth i (rows G) []) 0
       = negative (nth i (nth j (rows H) []) 0)).
Proof. intros HI HH Hsys. apply parity_structure; assumption. Qed.

Lemma parity_check_to_generator_form_witness :
  let H := {| nrows := 3; ncols := 7;
              rows := [[1; 1; 0; 1; 1; 0; 0]; [1; 0; 1; 1; 0; 1; 0];
                       [0; 1; 1; 1; 0; 0; 1]] |} in
  let negative := fun x : Z => x in
  let Identity := fun z => Return (eye (Z.to_nat z)) in
  (nrows H <= ncols H)%nat /\
  exists G,
    parity_check_to_generator_matrix negative Identity H = Return G /\
    well_formed G /\
    nrows G = (ncols H - nrows H)%nat /\ ncols G = ncols H /\
    (forall i c, (i < ncols H - nrows H)%nat -> (c < ncols H - nrows H)%nat ->
       nth c (nth i (rows G) []) 0 = if (i =? c)%nat then 1 else 0) /\
    (forall i j, (i < ncols H - nrows H)%nat -> (j < nrows H)%nat ->
       nth (ncols H - nrows H + j) (nth i (rows G) []) 0
       = negative (nth i (nth j (rows H) []) 0)).
Proof.
  intros H negative Identity.
  apply (parity_check_to_generator_form negative Identity H).
  - intros z _. reflexivity.
  - exact hamming_parity_well_formed.
  - vm_compute. reflexivity.
Defined.

(** X26: the two conversions are inverse to each other on generator
    matrices: for a well-formed [G = [I | P]] over a field whose negation is
    an involution, [parity_check_to_generator_matrix] accepts the result of
    [generator_to_parity_check_matrix] and returns [G]. *)
Theorem generator_parity_roundtrip negative Identity G :
  (forall z, 0 <= z -> Identity z = Return (eye (Z.to_nat z))) ->
  (forall x, negative (negative x) = x) ->
  well_formed G ->
  array_equal (slice_columns 0 (Some (Z.of_nat (nrows G))) G) (eye (nrows G))
  = true ->
  exists H,
    generator_to_parity_check_matrix negative Identity G = Return H /\
    parity_check_to_generator_matrix negative Identity H = Return G.
Proof.
  intros HI Hinv HG Hsys.
  destruct (generator_structure negative Identity HI G HG Hsys)
    as [Hkn [H [Hgen [HH [Hr [Hc [Hleft Hright]]]]]]].
  exists H. split; [assumption|].
  assert (HsysH :
    array_equal
      (slice_columns (Z.of_nat (ncols H) - Z.of_nat (nrows H)) None H)
      (eye (Z.to_nat (Z.of_nat (ncols H)
                      - (Z.of_nat (ncols H) - Z.of_nat (nrows H)))))
    = true).
  { apply array_equal_eq. rewrite Hr, Hc.
    replace (Z.of_nat (ncols G) - Z.of_nat (ncols G - nrows G))
      with (Z.of_nat (nrows G)) by lia.
    replace (Z.to_nat (Z.of_nat (ncols G) - Z.of_nat (nrows G)))
      with (ncols G - nrows G)%nat by lia.
    apply ndarray_ext.
    - apply well_formed_suffix. assumption.
    - apply well_formed_eye.
    - rewrite slice_columns_suffix. simpl. lia.
    - rewrite slice_columns_suffix. simpl. lia.
    - intros j c Hj Hcc.
      rewrite slice_columns_suffix in Hj, Hcc. cbn [nrows ncols] in Hj, Hcc.
      rewrite entry_suffix, Hright, entry_eye by (assumption || lia).
      replace (nrows G + c - nrows G)%nat with c by lia. reflexivity. }
  destruct (parity_structure negative Identity HI H HH HsysH)
    as [_ [G' [Hpar [HG' [Hr' [Hc' [Hleft' Hright']]]]]]].
  rewrite Hpar. f_equal.
  apply ndarray_ext; try assumption; try lia.
  intros i c Hi Hcc.
  destruct (Nat.lt_ge_cases c (nrows G)) as [Hlt|Hge].
  - rewrite Hleft' by lia.
    apply array_equal_eq in Hsys.
    rewrite <- (entry_prefix (nrows G) G i c) by (assumption || lia).
    rewrite Hsys, entry_eye by lia. reflexivity.
  - replace c with (ncols H - nrows H + (c - nrows G))%nat at 1 by lia.
    rewrite Hright', Hleft, Hinv by lia.
    replace (nrows G + (c - nrows G))%nat with c by lia. reflexivity.
Qed.

Lemma generator_parity_roundtrip_witness :
  let G := {| nrows := 4; ncols := 7;
              rows := [[1; 0; 0; 0; 1; 1; 0]; [0; 1; 0; 0; 1; 0; 1];
                       [0; 0; 1; 0; 0; 1; 1]; [0; 0; 0; 1; 1; 1; 1]] |} in
  let negative := fun x : Z => GF2m._negative_calculate x 2 1 3 in
  let Identity := fun z => Return (eye (Z.to_nat z)) in
  exists H,
    generator_to_parity_check_matrix negative Identity G = Return H /\
    parity_check_to_generator_matrix negative Identity H = Return G.
Proof.
  intros G negative Identity.
  apply (generator_parity_roundtrip negative Identity G).
  - intros z _. reflexivity.
  - intros x. reflexivity.
  - exact hamming_well_formed.
  - vm_compute. reflexivity.
Defined.

(** X27: and on parity-check matrices: for a well-formed [H = [A | I]],
    [generator_to_parity_check_matrix] accepts the result of
    [parity_check_to_generator_matrix] and returns [H]. *)
Theorem parity_generator_roundtrip negative Identity H :
  (forall z, 0 <= z -> Identity z = Return (eye (Z.to_nat z))) ->
  (forall x, negative (negative x) = x) ->
  well_formed H ->
  array_equal
    (slice_columns (Z.of_nat (ncols H) - Z.of_nat (nrows H)) None H)
    (eye (Z.to_nat (Z.of_nat (ncols H)
                    - (Z.of_nat (ncols H) - Z.of_nat (nrows H)))))
  = true ->
  exists G,
    parity_check_to_generator_matrix negative Identity H = Return G /\
    generator_to_parity_check_matrix negative Identity G = Return H.
Proof.
  intros HI Hinv HH Hsys.
  destruct (parity_structure negative Identity HI H HH Hsys)
    as [Hkn [G [Hpar [HG [Hr [Hc [Hleft Hright]]]]]]].
  exists G. split; [assumption|].
  assert (HsysG :
    array_equal (slice_columns 0 (Some (Z.of_nat (nrows G))) G)
                (eye (nrows G)) = true).
  { apply array_equal_eq. apply ndarray_ext.
    - apply well_formed_prefix; (assumption || lia).
    - apply well_formed_eye.
    - rewrite slice_columns_prefix by (assumption || lia). reflexivity.
    - rewrite slice_columns_prefix by (assumption || lia). reflexivity.
    - intros i c Hi Hcc.
      rewrite slice_columns_prefix in Hi, Hcc by (assumption || lia).
      cbn [nrows ncols] in Hi, Hcc.
      rewrite entry_prefix, Hleft, entry_eye by (assumption || lia).
      reflexivity. }
  destruct (generator_structure negative Identity HI G HG HsysG)
    as [_ [H' [Hgen [HH' [Hr' [Hc' [Hleft' Hright']]]]]]].
  rewrite Hgen. f_equal.
  apply ndarray_ext; try assumption; try lia.
  intros j c Hj Hcc.
  destruct (Nat.lt_ge_cases c (nrows G)) as [Hlt|Hge].
  - rewrite Hleft', Hr, Hright, Hinv by lia. reflexivity.
  - rewrite Hright' by lia.
    apply array_equal_eq in Hsys.
    replace (Z.of_nat (ncols H) - Z.of_nat (nrows H))
      with (Z.of_nat (nrows G)) in Hsys by lia.
    replace c with (nrows G + (c - nrows G))%nat at 2 by lia.
    rewrite <- (entry_suffix (nrows G) H j (c - nrows G)) by (assumption || lia).
    rewrite Hsys, entry_eye by lia. reflexivity.
Qed.

Lemma parity_generator_roundtrip_witness :
  let H := {| nrows := 3; ncols := 7;
              rows := [[1; 1; 0; 1; 1; 0; 0]; [1; 0; 1; 1; 0; 1; 0];
                       [0; 1; 1; 1; 0; 0; 1]] |} in
  let negative := fun x : Z => GF2m._negative_calculate x 2 1 3 in
  let Identity := fun z => Return (eye (Z.to_nat z)) in
  exists G,
    parity_check_to_generator_matrix negative Identity H = Return G /\
    generator_to_parity_check_matrix negative Identity G = Return H.
Proof.
  intros H negative Identity.
  apply (parity_generator_roundtrip negative Identity H).
  - intros z _. reflexivity.
  - intros x. reflexivity.
  - exact hamming_parity_well_formed.
  - vm_compute. reflexivity.
Defined.

(** *** Scalar products over GF(2^m) *)

Section ScalarProduct.

Variable mul : Z -> Z -> Z.
Variable F : Z -> Prop.
Hypothesis mul_1_l : forall x, F x -> mul 1 x = x.
Hypothesis mul_1_r : forall x, F x -> mul x 1 = x.
Hypothesis mul_0_l : forall x, mul 0 x = 0.
Hypothesis mul_0_r : forall x, mul x 0 = 0.

Lemma dot_app u1 u2 v1 v2 :
  length u1 = length v1 ->
  dot Z.lxor mul (u1 ++ u2) (v1 ++ v2)
  = Z.lxor (dot Z.lxor mul u1 v1) (dot Z.lxor mul u2 v2).
Proof.
  revert v1. induction u1 as [|x u1 IH]; intros [|y v1] Hlen;
    try discriminate.
  - unfold dot at 2. simpl. reflexivity.
  - injection Hlen as Hlen. specialize (IH v1 Hlen).
    unfold dot in *. simpl. rewrite IH. apply eq_sym, Z.lxor_assoc.
Qed.

(** The scalar product with a row of the identity matrix picks one
    element. *)
Lemma dot_unit_l i k : forall s v,
  length v = k -> Forall F v ->
  dot Z.lxor mul (map (fun j => if (i =? j)%nat then 1 else 0) (seq s k)) v
  = if ((s <=? i) && (i <? s + k))%nat then nth (i - s) v 0 else 0.
Proof.
  induction k as [|k IH]; intros s [|x v] Hlen HF; try discriminate.
  - rewrite Nat.add_0_r.
    destruct (Nat.leb_spec s i); destruct (Nat.ltb_spec i s);
      try reflexivity; lia.
  - injection Hlen as Hlen. apply Forall_cons_iff in HF as [Hx HF].
    specialize (IH (S s) v Hlen HF).
    unfold dot in *. cbn [seq map combine fold_right fst snd]. rewrite IH.
    destruct (Nat.eqb_spec i s) as [->|Hne].
    + rewrite mul_1_l by assumption.
      destruct (Nat.leb_spec (S s) s); [lia|].
      destruct (Nat.leb_spec s s); [|lia].
      destruct (Nat.ltb_spec s (s + S k)); [|lia].
      cbn [andb]. rewrite Nat.sub_diag, Z.lxor_0_r. reflexivity.
    + rewrite mul_0_l, Z.lxor_0_l.
      destruct (Nat.leb_spec (S s) i); destruct (Nat.leb_spec s i); try lia;
        destruct (Nat.ltb_spec i (S s + k));
        destruct (Nat.ltb_spec i (s + S k)); try lia; cbn [andb];
        try reflexivity.
      replace (i - s)%nat with (S (i - S s)) by lia. reflexivity.
Qed.

Lemma dot_unit_r i k : forall s u,
  length u = k -> Forall F u ->
  dot Z.lxor mul u (map (fun j => if (i =? j)%nat then 1 else 0) (seq s k))
  = if ((s <=? i) && (i <? s + k))%nat then nth (i - s) u 0 else 0.
Proof.
  induction k as [|k IH]; intros s [|x u] Hlen HF; try discriminate.
  - rewrite Nat.add_0_r.
    destruct (Nat.leb_spec s i); destruct (Nat.ltb_spec i s);
      try reflexivity; lia.
  - injection Hlen as Hlen. apply Forall_cons_iff in HF as [Hx HF].
    specialize (IH (S s) u Hlen HF).
    unfold dot in *. cbn [seq map combine fold_right fst snd]. rewrite IH.
    destruct (Nat.eqb_spec i s) as [->|Hne].
    + rewrite mul_1_r by assumption.
      destruct (Nat.leb_spec (S s) s); [lia|].
      destruct (Nat.leb_spec s s); [|lia].
      destruct (Nat.ltb_spec s (s + S k)); [|lia].
      cbn [andb]. rewrite Nat.sub_diag, Z.lxor_0_r. reflexivity.
    + rewrite mul_0_r, Z.lxor_0_l.
      destruct (Nat.leb_spec (S s) i); destruct (Nat.leb_spec s i); try lia;
        destruct (Nat.ltb_spec i (S s + k));
        destruct (Nat.ltb_spec i (s + S k)); try lia; cbn [andb];
        try reflexivity.
      replace (i - s)%nat with (S (i - S s)) by lia. reflexivity.
Qed.

End ScalarProduct.

(** X28: over GF(2^m), with the addition, negation and multiplication of
    [GF2m], every row of a generator matrix [G = [I | P]] is orthogonal to
    every row of the parity-check matrix computed from it:
    [G H^T = 0]. *)
Theorem generator_parity_orthogonal m p Identity G H g h :
  1 <= m -> 2 ^ m <= p < 2 ^ (m + 1) ->
  (forall z, 0 <= z -> Identity z = Return (eye (Z.to_nat z))) ->
  well_formed G ->
  array_equal (slice_columns 0 (Some (Z.of_nat (nrows G))) G) (eye (nrows G))
  = true ->
  Forall (Forall (fun x => 0 <= x < 2 ^ m)) (rows G) ->
  generator_to_parity_check_matrix
    (fun x => GF2m._negative_calculate x 2 m p) Identity G = Return H ->
  In g (rows G) -> In h (rows H) ->
  dot (fun x y => GF2m._add_calculate x y 2 m p)
      (fun x y => GF2m.multiply x y 2 m p) g h = 0.
Proof.
  intros Hm Hp HI HG Hsys Hval Hgen Hg Hh.
  change (dot Z.lxor (fmul m p) g h = 0).
  destruct (generator_structure (fun x => GF2m._negative_calculate x 2 m p)
              Identity HI G HG Hsys)
    as [Hkn [H' [Hgen' [HH [Hr [Hc [Hleft Hright]]]]]]].
  rewrite Hgen in Hgen'. injection Hgen' as <-.
  unfold GF2m._negative_calculate in Hleft.
  destruct (In_nth _ _ [] Hg) as [i [Hi <-]].
  destruct (In_nth _ _ [] Hh) as [j [Hj <-]].
  assert (Hi' : (i < nrows G)%nat) by (destruct HG; lia).
  assert (Hj' : (j < ncols G - nrows G)%nat) by (destruct HH; lia).
  set (k := nrows G) in *. set (n := ncols G) in *.
  set (g := nth i (rows G) []) in *. set (h := nth j (rows H) []) in *.
  assert (Hlg : length g = n) by (apply row_length; assumption).
  assert (Hlh : length h = n)
    by (unfold h; rewrite row_length by (assumption || lia); assumption).
  assert (Hentry : forall a c, (a < k)%nat -> (c < n)%nat ->
            0 <= nth c (nth a (rows G) []) 0 < 2 ^ m).
  { intros a c Ha Hcn. rewrite Forall_forall in Hval.
    assert (Hrow : In (nth a (rows G) []) (rows G))
      by (apply nth_In; destruct HG; lia).
    specialize (Hval _ Hrow). rewrite Forall_forall in Hval.
    apply Hval, nth_In. rewrite row_length; assumption. }
  assert (Hgl : firstn k g
                = map (fun c => if (i =? c)%nat then 1 else 0) (seq 0 k)).
  { apply (nth_ext _ _ 0 0).
    - rewrite length_firstn, length_map, length_seq. lia.
    - intros c Hcl. rewrite length_firstn in Hcl.
      rewrite nth_firstn. destruct (Nat.ltb_spec c k); [|lia].
      rewrite nth_map_seq by assumption.
      apply array_equal_eq in Hsys. unfold g.
      rewrite <- (entry_prefix k G i c) by (assumption || lia).
      rewrite Hsys. apply entry_eye; assumption. }
  assert (Hhr : skipn k h
                = map (fun c => if (j =? c)%nat then 1 else 0) (seq 0 (n - k))).
  { apply (nth_ext _ _ 0 0).
    - rewrite length_skipn, length_map, length_seq. lia.
    - intros c Hcl. rewrite length_skipn in Hcl.
      rewrite nth_skipn, nth_map_seq by lia.
      unfold h. rewrite Hright by lia.
      replace (k + c - k)%nat with c by lia. reflexivity. }
  assert (HFh : Forall (fun x => 0 <= x < 2 ^ m) (firstn k h)).
  { apply Forall_nth. intros c d Hcl. rewrite length_firstn in Hcl.
    rewrite (nth_indep _ d 0) by (rewrite length_firstn; lia).
    rewrite nth_firstn. destruct (Nat.ltb_spec c k); [|lia].
    unfold h. rewrite Hleft by lia. apply Hentry; lia. }
  assert (HFg : Forall (fun x => 0 <= x < 2 ^ m) (skipn k g)).
  { apply Forall_nth. intros c d Hcl. rewrite length_skipn in Hcl.
    rewrite (nth_indep _ d 0) by (rewrite length_skipn; lia).
    rewrite nth_skipn. apply Hentry; lia. }
  assert (Hz : forall x y, Z.min x y <= 0 -> fmul m p x y = 0)
    by (intros x y Hxy; apply fmul_nonpositive; (lia || assumption)).
  rewrite <- (firstn_skipn k g), <- (firstn_skipn k h).
  rewrite dot_app by (rewrite !length_firstn; lia).
  rewrite Hgl, Hhr.
  rewrite (dot_unit_l (fmul m p) (fun x => 0 <= x < 2 ^ m)
             (fmul_1_l m p Hm Hp) (fun x => Hz 0 x ltac:(lia)) i k 0%nat)
    by (assumption || (rewrite length_firstn; lia)).
  rewrite (dot_unit_r (fmul m p) (fun x => 0 <= x < 2 ^ m)
             (fmul_1_r m p Hm Hp) (fun x => Hz x 0 ltac:(lia)) j (n - k) 0%nat)
    by (assumption || (rewrite length_skipn; lia)).
  destruct (Nat.leb_spec 0 i); [|lia].
  destruct (Nat.ltb_spec i (0 + k)); [|lia].
  destruct (Nat.leb_spec 0 j); [|lia].
  destruct (Nat.ltb_spec j (0 + (n - k))); [|lia].
  cbn [andb]. rewrite !Nat.sub_0_r, nth_firstn, nth_skipn.
  destruct (Nat.ltb_spec i k); [|lia].
  unfold h at 1. rewrite Hleft by lia.
  apply Z.lxor_nilpotent.
Qed.

Lemma generator_parity_orthogonal_witness :
  let G := {| nrows := 2; ncols := 3; rows := [[1; 0; 3]; [0; 1; 6]] |} in
  let Identity := fun z => Return (eye (Z.to_nat z)) in
  dot (fun x y => GF2m._add_calculate x y 2 3 11)
      (fun x y => GF2m.multiply x y 2 3 11) [1; 0; 3] [3; 6; 1] = 0.
Proof.
  intros G Identity.
  apply (generator_parity_orthogonal 3 11 Identity G
           {| nrows := 1; ncols := 3; rows := [[3; 6; 1]] |}).
  - lia.
  - lia.
  - intros z _. reflexivity.
  - split; [reflexivity|repeat constructor].
  - vm_compute. reflexivity.
  - repeat constructor; lia.
  - vm_compute. reflexivity.
  - left. reflexivity.
  - left. reflexivity.
Defined.
